(** * core-js-101, [src/05-objects-tasks.js]

    A shallow embedding of the three utilities of the module
    ([Rectangle], [getJSON]/[fromJSON] and the CSS selector builder) and the
    properties of them that the specification states.

    JavaScript objects are mutable and shared by reference.  A method of
    [CssSelectorBase] that only touches its receiver is a state transformer on
    the receiver's record which also yields a completion (a returned value or
    a thrown exception: the fields written before a [throw] stay written).
    Calls that involve several objects ([combine], the facade) run on a heap
    of objects addressed by location, so that two references to one object
    are the same location.

    Part I is the program, function by function, in the order of the source
    file.  Part II names what the properties speak of.  Part III states and
    proves them, claim by claim.  Part IV proves further properties of the
    code. *)

From Stdlib Require Import String Ascii ZArith Lia.
From stdpp Require Import base option list strings pretty.

Local Open Scope string_scope.
Local Open Scope list_scope.

(** * Part I: the program *)

(** The double quote character, as a string. *)
Definition dq : string := String (ascii_of_nat 34) EmptyString.

(** ** Completions of a JavaScript call *)

(** Thrown values: the program throws [new Error(message)]; [TypeError] is
    what the runtime throws (reading a property of [undefined], assigning
    to a property that cannot be assigned), [SyntaxError] what [JSON.parse]
    throws. *)
Inductive exn : Type :=
| Error (message : string)
| TypeError (message : string)
| SyntaxError (message : string).

Inductive completion (A : Type) : Type :=
| Return (a : A)
| Throw (e : exn).
Arguments Return {A} a.
Arguments Throw {A} e.

Definition is_Throw {A} (c : completion A) : bool :=
  match c with Throw _ => true | Return _ => false end.

(** ** State and exceptions

    A computation over a mutable state [S]: it yields the state it leaves
    behind and its completion.  After a [Throw] the rest of the body is
    skipped, and what was written before stays. *)
Definition M (S A : Type) : Type := S -> S * completion A.

Definition ret {S A} (a : A) : M S A := fun s => (s, Return a).

Definition throw {S A} (e : exn) : M S A := fun s => (s, Throw e).

Definition bind {S A B} (m : M S A) (k : A -> M S B) : M S B :=
  fun s =>
    match m s with
    | (s', Return a) => k a s'
    | (s', Throw e) => (s', Throw e)
    end.

Declare Scope js_scope.
Delimit Scope js_scope with js.
Notation "x <- m ;;; k" := (bind m (fun x => k))
  (at level 20, m at level 99, k at level 200, only parsing) : js_scope.
Notation "m1 ;;; m2" := (bind m1 (fun _ => m2))
  (at level 100, m2 at level 200, right associativity) : js_scope.
Local Open Scope js_scope.

(** * [Rectangle] *)

Module Rectangle.
Section Rectangle.
(** The numbers of JavaScript and their product [*]. *)
Variable number : Type.
Variable mul : number -> number -> number.

Definition ref : Type := nat.

(** The arrow function [() => this.width * this.height]: it is closed
    over the [this] of the constructor call that created it. *)
Inductive closure : Type :=
| arrow (this : ref).

Record t : Type := mk {
  width : number;
  height : number;
  getArea : closure;
}.

Definition heap : Type := list t.

(** [new Rectangle(width, height)]: the new object is [this] in the body. *)
Definition Rectangle (width height : number) : M heap ref :=
  fun h =>
    let this := length h in
    (h ++ [{| width := width; height := height; getArea := arrow this |}], Return this).

Definition not_an_object : exn := TypeError "Cannot read properties of undefined".

(** [r.width] and [r.height] *)
Definition get_width (r : ref) : M heap number :=
  fun h =>
    match h !! r with
    | Some o => ret (width o) h
    | None => throw not_an_object h
    end.

Definition get_height (r : ref) : M heap number :=
  fun h =>
    match h !! r with
    | Some o => ret (height o) h
    | None => throw not_an_object h
    end.

(** [r.width = w] and [r.height = w] *)
Definition set_width (r : ref) (w : number) : M heap unit :=
  fun h =>
    match h !! r with
    | Some o =>
        ret tt (<[r := {| width := w; height := height o; getArea := getArea o |}]> h)
    | None => throw not_an_object h
    end.

Definition set_height (r : ref) (w : number) : M heap unit :=
  fun h =>
    match h !! r with
    | Some o =>
        ret tt (<[r := {| width := width o; height := w; getArea := getArea o |}]> h)
    | None => throw not_an_object h
    end.

(** [r.getArea()]: the body reads the fields of the captured [this] when
    it is called. *)
Definition call_getArea (r : ref) : M heap number :=
  fun h =>
    match h !! r with
    | Some o =>
        match getArea o with
        | arrow this =>
            (w <- get_width this ;;; h' <- get_height this ;;; ret (mul w h')) h
        end
    | None => throw not_an_object h
    end.

(** Assignments to the two fields of a rectangle. *)
Inductive assignment : Type :=
| Width (w : number)
| Height (w : number).

Fixpoint assignments (r : ref) (ws : list assignment) : M heap unit :=
  match ws with
  | [] => ret tt
  | Width w :: ws' => set_width r w ;;; assignments r ws'
  | Height w :: ws' => set_height r w ;;; assignments r ws'
  end.

(** The values last assigned, from the given ones. *)
Fixpoint current (ws : list assignment) (wh : number * number) : number * number :=
  match ws with
  | [] => wh
  | Width w :: ws' => current ws' (w, snd wh)
  | Height w :: ws' => current ws' (fst wh, w)
  end.
End Rectangle.

Arguments mk {number} width height getArea.
Arguments width {number} _.
Arguments height {number} _.
Arguments getArea {number} _.
Arguments Rectangle {number} width height _.
Arguments get_width {number} r _.
Arguments get_height {number} r _.
Arguments set_width {number} r w _.
Arguments set_height {number} r w _.
Arguments call_getArea {number} mul r _.
Arguments Width {number} w.
Arguments Height {number} w.
Arguments assignments {number} r ws _.
Arguments current {number} ws wh.
End Rectangle.

(** * [getJSON] and [fromJSON] *)

(** ** Plain values

    The values [JSON.stringify] and [JSON.parse] exchange.  An object is the
    list of its own enumerable properties in the order of its keys; numbers
    are kept to the integers (nothing below computes with them). *)
#[local] Set Warnings "-register-all".
Inductive json : Type :=
| JNull
| JBool (b : bool)
| JNumber (n : Z)
| JString (s : string)
| JArray (xs : list json)
| JObject (fields : list (string * json)).

(** ** A codec for this fragment of JSON

    [getJSON] and [fromJSON] delegate to the platform's [JSON.stringify] and
    [JSON.parse], which they take as parameters below.  This codec, written
    after the JSON grammar, is the instance on which the examples are run:
    integers for numbers, and in strings the characters that JSON writes as
    they are or with a two-character escape. *)
Module JSON.

Definition escape_char (c : ascii) : string :=
  if Ascii.eqb c "034" then String "\" (String "034" "")
  else if Ascii.eqb c "\" then "\\"
  else if Ascii.eqb c "008" then "\b"
  else if Ascii.eqb c "012" then "\f"
  else if Ascii.eqb c "010" then "\n"
  else if Ascii.eqb c "013" then "\r"
  else if Ascii.eqb c "009" then "\t"
  else String c "".

Fixpoint escape (s : string) : string :=
  match s with
  | EmptyString => ""
  | String c s' => escape_char c +:+ escape s'
  end.

Definition quote (s : string) : string := dq +:+ escape s +:+ dq.

(** [JSON.stringify(value)] *)
Fixpoint stringify (value : json) : string :=
  match value with
  | JNull => "null"
  | JBool true => "true"
  | JBool false => "false"
  | JNumber n => pretty n
  | JString s => quote s
  | JArray xs => "[" +:+ String.concat "," (map stringify xs) +:+ "]"
  | JObject fields =>
      "{" +:+ String.concat ","
                (map (fun kv => quote (fst kv) +:+ ":" +:+ stringify (snd kv)) fields)
          +:+ "}"
  end.

Definition is_ws (c : ascii) : bool :=
  Ascii.eqb c " " || Ascii.eqb c "009" || Ascii.eqb c "010" || Ascii.eqb c "013".

Fixpoint skip_ws (s : string) : string :=
  match s with
  | String c s' => if is_ws c then skip_ws s' else s
  | EmptyString => s
  end.

Definition digit (c : ascii) : option N :=
  let n := N_of_ascii c in
  if (48 <=? n)%N && (n <=? 57)%N then Some (n - 48)%N else None.

(** The digits at the head of [s], read after [acc]. *)
Fixpoint parse_digits (acc : N) (s : string) : N * string :=
  match s with
  | String c s' =>
      match digit c with
      | Some d => parse_digits (10 * acc + d)%N s'
      | None => (acc, s)
      end
  | EmptyString => (acc, s)
  end.

(** An integer without sign: one digit at least, no leading zero. *)
Definition parse_natural (s : string) : option (N * string) :=
  match s with
  | String c s' =>
      match digit c with
      | Some 0%N => Some (0%N, s')
      | Some d => Some (parse_digits d s')
      | None => None
      end
  | EmptyString => None
  end.

(** The characters of a string up to its closing quote. *)
Fixpoint parse_chars (s : string) : option (string * string) :=
  match s with
  | EmptyString => None
  | String c s' =>
      if Ascii.eqb c "034" then Some ("", s')
      else if Ascii.eqb c "\" then
        match s' with
        | String e s'' =>
            let unescaped :=
              if Ascii.eqb e "034" then Some "034"%char
              else if Ascii.eqb e "\" then Some "\"%char
              else if Ascii.eqb e "/" then Some "/"%char
              else if Ascii.eqb e "b" then Some "008"%char
              else if Ascii.eqb e "f" then Some "012"%char
              else if Ascii.eqb e "n" then Some "010"%char
              else if Ascii.eqb e "r" then Some "013"%char
              else if Ascii.eqb e "t" then Some "009"%char
              else None in
            match unescaped, parse_chars s'' with
            | Some u, Some (str, rest) => Some (String u str, rest)
            | _, _ => None
            end
        | EmptyString => None
        end
      else if (N_of_ascii c <? 32)%N then None
      else
        match parse_chars s' with
        | Some (str, rest) => Some (String c str, rest)
        | None => None
        end
  end.

Definition starts_with (p s : string) : option string :=
  if String.prefix p s then Some (String.substring (String.length p)
                                    (String.length s - String.length p) s)
  else None.

(** A value, the elements of an array after its first, and the members
    of an object after its first, each with the text that follows. *)
Fixpoint parse_value (fuel : nat) (s : string) : option (json * string) :=
  match fuel with
  | O => None
  | S fuel' =>
      match skip_ws s with
      | EmptyString => None
      | String c s' =>
          if Ascii.eqb c "n" then
            match starts_with "ull" s' with Some r => Some (JNull, r) | None => None end
          else if Ascii.eqb c "t" then
            match starts_with "rue" s' with Some r => Some (JBool true, r) | None => None end
          else if Ascii.eqb c "f" then
            match starts_with "alse" s' with Some r => Some (JBool false, r) | None => None end
          else if Ascii.eqb c "034" then
            match parse_chars s' with
            | Some (str, r) => Some (JString str, r)
            | None => None
            end
          else if Ascii.eqb c "-" then
            match parse_natural s' with
            | Some (n, r) => Some (JNumber (- Z.of_N n), r)
            | None => None
            end
          else if Ascii.eqb c "[" then
            match skip_ws s' with
            | EmptyString => None
            | String c' r =>
                if Ascii.eqb c' "]" then Some (JArray [], r)
                else
                  match parse_value fuel' s' with
                  | Some (x, r) =>
                      match parse_elements fuel' r with
                      | Some (xs, r') => Some (JArray (x :: xs), r')
                      | None => None
                      end
                  | None => None
                  end
            end
          else if Ascii.eqb c "{" then
            match skip_ws s' with
            | EmptyString => None
            | String c' r =>
                if Ascii.eqb c' "}" then Some (JObject [], r)
                else
                  match parse_member fuel' s' with
                  | Some (kx, r) =>
                      match parse_members fuel' r with
                      | Some (kxs, r') => Some (JObject (kx :: kxs), r')
                      | None => None
                      end
                  | None => None
                  end
            end
          else
            match parse_natural (String c s') with
            | Some (n, r) => Some (JNumber (Z.of_N n), r)
            | None => None
            end
      end
  end
with parse_elements (fuel : nat) (s : string) : option (list json * string) :=
  match fuel with
  | O => None
  | S fuel' =>
      match skip_ws s with
      | String "]" r => Some ([], r)
      | String "," r =>
          match parse_value fuel' r with
          | Some (x, r') =>
              match parse_elements fuel' r' with
              | Some (xs, r'') => Some (x :: xs, r'')
              | None => None
              end
          | None => None
          end
      | _ => None
      end
  end
with parse_member (fuel : nat) (s : string) : option ((string * json) * string) :=
  match fuel with
  | O => None
  | S fuel' =>
      match skip_ws s with
      | String "034" r =>
          match parse_chars r with
          | Some (k, r') =>
              match skip_ws r' with
              | String ":" r'' =>
                  match parse_value fuel' r'' with
                  | Some (x, r''') => Some ((k, x), r''')
                  | None => None
                  end
              | _ => None
              end
          | None => None
          end
      | _ => None
      end
  end
with parse_members (fuel : nat) (s : string) : option (list (string * json) * string) :=
  match fuel with
  | O => None
  | S fuel' =>
      match skip_ws s with
      | String "}" r => Some ([], r)
      | String "," r =>
          match parse_member fuel' r with
          | Some (kx, r') =>
              match parse_members fuel' r' with
              | Some (kxs, r'') => Some (kx :: kxs, r'')
              | None => None
              end
          | None => None
          end
      | _ => None
      end
  end.

(** [JSON.parse(text)]: one value, and nothing but white space after it.
    Every call of the parser reads a character, so the length of the text
    is fuel enough. *)
Definition parse (text : string) : completion json :=
  match parse_value (S (String.length text)) text with
  | Some (value, rest) =>
      match skip_ws rest with
      | EmptyString => Return value
      | _ => Throw (SyntaxError "Unexpected non-whitespace character after JSON")
      end
  | None => Throw (SyntaxError "Unexpected token in JSON")
  end.

End JSON.

(** ** Ordinary objects

    What [Object.create] and [Object.assign] need of the object model: the
    object under construction with its own properties (all of them data
    properties, enumerable and writable, as [Object.assign] creates them) and
    its prototype chain; of an inherited property, whether it is a data
    property and writable, or an accessor and with which setter.  The chain
    lists the property tables from the prototype up to [null]. *)
Definition setter : Type := json -> M (list (string * json)) unit.

Inductive property : Type :=
| Data (writable : bool)
| Accessor (set : option setter).

Definition prototype : Type := list (list (string * property)).

Record object : Type := mkObject {
  own : list (string * json);
  proto : prototype;
}.

(** The first binding of a key. *)
Fixpoint assoc {A} (k : string) (l : list (string * A)) : option A :=
  match l with
  | [] => None
  | (k', a) :: l' => if String.eqb k k' then Some a else assoc k l'
  end.

(** The property a key resolves to along the prototype chain. *)
Fixpoint inherited (k : string) (p : prototype) : option property :=
  match p with
  | [] => None
  | props :: p' =>
      match assoc k props with
      | Some d => Some d
      | None => inherited k p'
      end
  end.

(** The own data property [k] set to [x]: in place when the key exists, as
    the last property otherwise. *)
Fixpoint define (k : string) (x : json) (props : list (string * json)) :
    list (string * json) :=
  match props with
  | [] => [(k, x)]
  | (k', y) :: props' =>
      if String.eqb k k' then (k', x) :: props' else (k', y) :: define k x props'
  end.

Module Object.

(** [Object.create(proto)] *)
Definition create (proto : prototype) : object := {| own := []; proto := proto |}.

(** The own enumerable properties of a plain value, as [ToObject] shows
    them: the members of an object, the elements of an array and the
    characters of a string under their indices, none for the others. *)
Definition own_enumerable (value : json) : list (string * json) :=
  match value with
  | JObject fields => fields
  | JArray xs => imap (fun i x => (pretty i, x)) xs
  | JString s => imap (fun i c => (pretty i, JString (String c ""))) (list_ascii_of_string s)
  | _ => []
  end.

(** [Set(target, k, x, true)]: the assignment [target[k] = x] of
    [Object.assign], which throws where the assignment fails. *)
Definition set (k : string) (x : json) : M object unit :=
  fun target =>
    match assoc k (own target) with
    | Some _ => ret tt {| own := define k x (own target); proto := proto target |}
    | None =>
        match inherited k (proto target) with
        | None | Some (Data true) =>
            ret tt {| own := define k x (own target); proto := proto target |}
        | Some (Data false) =>
            throw (TypeError "Cannot assign to read only property") target
        | Some (Accessor None) =>
            throw (TypeError "Cannot set property which has only a getter") target
        | Some (Accessor (Some f)) =>
            let (own', r) := f x (own target) in
            ({| own := own'; proto := proto target |}, r)
        end
    end.

Fixpoint assign_properties (props : list (string * json)) : M object unit :=
  match props with
  | [] => ret tt
  | (k, x) :: props' => set k x ;;; assign_properties props'
  end.

(** [Object.assign(target, source)] *)
Definition assign (source : json) : M object unit :=
  assign_properties (own_enumerable source).

End Object.

(** ** The two functions *)

Section Serialization.
(** The platform's [JSON.stringify] and [JSON.parse]. *)
Variable JSON_stringify : json -> string.
Variable JSON_parse : string -> completion json.

(** [getJSON(obj)] *)
Definition getJSON (obj : json) : string := JSON_stringify obj.

(** [fromJSON(proto, json)] *)
Definition fromJSON (proto : prototype) (json : string) : completion object :=
  let objTypeIsSet := Object.create proto in
  match JSON_parse json with
  | Return objFromJSON =>
      match Object.assign objFromJSON objTypeIsSet with
      | (target, Return _) => Return target
      | (_, Throw e) => Throw e
      end
  | Throw e => Throw e
  end.
End Serialization.

(** * The CSS selector builder *)

(** ** The state of one [CssSelectorBase] object *)

(** [this.params]: one array of fragments per selector part. *)
Module Params.
Record t : Type := mk {
  element : list string;
  id : list string;
  className : list string;
  attr : list string;
  pseudoClass : list string;
  pseudoElement : list string;
}.

(** [params[paramName]]; [None] is [undefined]. *)
Definition get (paramName : string) (p : t) : option (list string) :=
  if String.eqb paramName "element" then Some (element p)
  else if String.eqb paramName "id" then Some (id p)
  else if String.eqb paramName "className" then Some (className p)
  else if String.eqb paramName "attr" then Some (attr p)
  else if String.eqb paramName "pseudoClass" then Some (pseudoClass p)
  else if String.eqb paramName "pseudoElement" then Some (pseudoElement p)
  else None.
End Params.

(** [this.correctOrder]: one flag per selector part.  [Object.keys] lists
    the keys in the order the object literal of the constructor wrote them. *)
Module CorrectOrder.
Record t : Type := mk {
  element : bool;
  id : bool;
  class : bool;
  attr : bool;
  pseudoClass : bool;
  pseudoElement : bool;
}.

Definition keys : list string :=
  ["element"; "id"; "class"; "attr"; "pseudoClass"; "pseudoElement"].

(** The truth value of [correctOrder[param]] ([undefined] is falsy). *)
Definition get (param : string) (o : t) : bool :=
  if String.eqb param "element" then element o
  else if String.eqb param "id" then id o
  else if String.eqb param "class" then class o
  else if String.eqb param "attr" then attr o
  else if String.eqb param "pseudoClass" then pseudoClass o
  else if String.eqb param "pseudoElement" then pseudoElement o
  else false.

(** [correctOrder[param] = true], for a key of the object. *)
Definition set_true (param : string) (o : t) : t :=
  if String.eqb param "element" then
    mk true (id o) (class o) (attr o) (pseudoClass o) (pseudoElement o)
  else if String.eqb param "id" then
    mk (element o) true (class o) (attr o) (pseudoClass o) (pseudoElement o)
  else if String.eqb param "class" then
    mk (element o) (id o) true (attr o) (pseudoClass o) (pseudoElement o)
  else if String.eqb param "attr" then
    mk (element o) (id o) (class o) true (pseudoClass o) (pseudoElement o)
  else if String.eqb param "pseudoClass" then
    mk (element o) (id o) (class o) (attr o) true (pseudoElement o)
  else if String.eqb param "pseudoElement" then
    mk (element o) (id o) (class o) (attr o) (pseudoClass o) true
  else o.
End CorrectOrder.

(** ** [class CssSelectorBase] *)

Module CssSelectorBase.

Record t : Type := mk {
  params : Params.t;
  selectorString : string;
  correctOrder : CorrectOrder.t;
}.

(** [constructor()] *)
Definition constructor : t :=
  {| params := Params.mk [] [] [] [] [] [];
     selectorString := "";
     correctOrder := CorrectOrder.mk false false false false false false |}.

(** A method body, run on its receiver [this]. *)
Definition method (A : Type) : Type := M t A.

Definition duplicate_message : string :=
  "Element, id and pseudo-element should not occur more then one time inside the selector".

Definition order_message : string :=
  "Selector parts should be arranged in the following order: element, id, class, attribute, pseudo-class, pseudo-element".

(** The two errors of the builder, as the specification names them. *)
Definition DuplicateSelectorPartError : exn := Error duplicate_message.
Definition SelectorOrderError : exn := Error order_message.

Definition set_params (p : Params.t) (this : t) : t :=
  {| params := p; selectorString := selectorString this; correctOrder := correctOrder this |}.

Definition set_selectorString (s : string) (this : t) : t :=
  {| params := params this; selectorString := s; correctOrder := correctOrder this |}.

Definition set_correctOrder (o : CorrectOrder.t) (this : t) : t :=
  {| params := params this; selectorString := selectorString this; correctOrder := o |}.

(** [checkForOccurance(paramName)] *)
Definition checkForOccurance (paramName : string) : method unit :=
  fun this =>
    match Params.get paramName (params this) with
    | Some param =>
        if Nat.eqb (length param) 0 then ret tt this
        else throw (Error duplicate_message) this
    | None => throw (TypeError "Cannot read properties of undefined (reading 'length')") this
    end.

(** The [forEach] of [checkForOrder] over the keys still to visit, with the
    local [paramIsActive]; a [throw] in the callback ends the loop. *)
Fixpoint checkForOrder_forEach (keys : list string) (paramName : string)
    (paramIsActive : bool) : method unit :=
  fun this =>
    match keys with
    | [] => ret tt this
    | param :: keys' =>
        if String.eqb param paramName then
          checkForOrder_forEach keys' paramName true
            (set_correctOrder (CorrectOrder.set_true param (correctOrder this)) this)
        else if paramIsActive && CorrectOrder.get param (correctOrder this) then
          throw (Error order_message) this
        else checkForOrder_forEach keys' paramName paramIsActive this
    end.

(** [checkForOrder(paramName)] *)
Definition checkForOrder (paramName : string) : method unit :=
  checkForOrder_forEach CorrectOrder.keys paramName false.

(** [this.params.<part>.push(value)] *)
Definition push_element (value : string) : method unit :=
  fun this =>
    let p := params this in
    ret tt (set_params (Params.mk (Params.element p ++ [value]) (Params.id p)
      (Params.className p) (Params.attr p) (Params.pseudoClass p) (Params.pseudoElement p)) this).

Definition push_id (value : string) : method unit :=
  fun this =>
    let p := params this in
    ret tt (set_params (Params.mk (Params.element p) (Params.id p ++ [value])
      (Params.className p) (Params.attr p) (Params.pseudoClass p) (Params.pseudoElement p)) this).

Definition push_className (value : string) : method unit :=
  fun this =>
    let p := params this in
    ret tt (set_params (Params.mk (Params.element p) (Params.id p)
      (Params.className p ++ [value]) (Params.attr p) (Params.pseudoClass p)
      (Params.pseudoElement p)) this).

Definition push_attr (value : string) : method unit :=
  fun this =>
    let p := params this in
    ret tt (set_params (Params.mk (Params.element p) (Params.id p)
      (Params.className p) (Params.attr p ++ [value]) (Params.pseudoClass p)
      (Params.pseudoElement p)) this).

Definition push_pseudoClass (value : string) : method unit :=
  fun this =>
    let p := params this in
    ret tt (set_params (Params.mk (Params.element p) (Params.id p)
      (Params.className p) (Params.attr p) (Params.pseudoClass p ++ [value])
      (Params.pseudoElement p)) this).

Definition push_pseudoElement (value : string) : method unit :=
  fun this =>
    let p := params this in
    ret tt (set_params (Params.mk (Params.element p) (Params.id p)
      (Params.className p) (Params.attr p) (Params.pseudoClass p)
      (Params.pseudoElement p ++ [value])) this).

(** The six fragment-adding methods.  Each ends in [return this]: on the
    receiver alone that is [tt], on the heap it is the receiver's location
    (see [send]). *)
Definition element (value : string) : method unit :=
  checkForOccurance "element" ;;;
  checkForOrder "element" ;;;
  push_element value.

Definition id (value : string) : method unit :=
  checkForOccurance "id" ;;;
  checkForOrder "id" ;;;
  push_id value.

Definition class (value : string) : method unit :=
  checkForOrder "class" ;;;
  push_className value.

Definition attr (value : string) : method unit :=
  checkForOrder "attr" ;;;
  push_attr value.

Definition pseudoClass (value : string) : method unit :=
  checkForOrder "pseudoClass" ;;;
  push_pseudoClass value.

Definition pseudoElement (value : string) : method unit :=
  checkForOrder "pseudoElement" ;;;
  checkForOccurance "pseudoElement" ;;;
  push_pseudoElement value.

(** [a || ''] for an optional string argument. *)
Definition or_empty (a : option string) : string :=
  match a with Some s => s | None => "" end.

(** [param.join(b)] on an array of strings. *)
Definition join (b : string) (param : list string) : string := String.concat b param.

(** [addElementToSelectorString(param, pre, separator, post)] *)
Definition addElementToSelectorString (param : list string)
    (pre separator post : option string) : method unit :=
  fun this =>
    let a := or_empty pre in
    let b := or_empty separator in
    let c := or_empty post in
    if Nat.eqb (length param) 0 then ret tt this
    else ret tt (set_selectorString (selectorString this +:+ (a +:+ join b param +:+ c)) this).

(** [stringify()] *)
Definition stringify : method string :=
  (fun this => addElementToSelectorString (Params.element (params this)) None None None this) ;;;
  (fun this => addElementToSelectorString (Params.id (params this)) (Some "#") (Some "#") None this) ;;;
  (fun this => addElementToSelectorString (Params.className (params this)) (Some ".") (Some ".") None this) ;;;
  (fun this => addElementToSelectorString (Params.attr (params this)) (Some "[") (Some "][") (Some "]") this) ;;;
  (fun this => addElementToSelectorString (Params.pseudoClass (params this)) (Some ":") (Some ":") None this) ;;;
  (fun this => addElementToSelectorString (Params.pseudoElement (params this)) (Some "::") (Some "::") None this) ;;;
  (fun this => ret (selectorString this) this).

(** *** Objects on the heap

    A reference to a selector object is its location on the heap.  A
    reference to anything else has no [stringify] or fragment method to
    call: the call throws a [TypeError]. *)
Definition loc : Type := nat.
Definition heap : Type := list t.
Definition program (A : Type) : Type := M heap A.

(** [new CssSelectorBase()] *)
Definition new : program loc :=
  fun h => (h ++ [constructor], Return (length h)).

(** A method call [this.m(...)], the receiver read from and written back
    to the heap. *)
Definition invoke {A} (this : loc) (m : method A) : program A :=
  fun h =>
    match h !! this with
    | Some o => let (o', r) := m o in (<[this := o']> h, r)
    | None => throw (TypeError "not a function") h
    end.

(** A call of a method that ends in [return this]. *)
Definition send (this : loc) (m : method unit) : program loc :=
  invoke this m ;;; ret this.

(** [combine(selector1, combinator, selector2)] *)
Definition combine (this selector1 : loc) (combinator : string) (selector2 : loc) :
    program loc :=
  s1 <- invoke selector1 stringify ;;;
  s2 <- invoke selector2 stringify ;;;
  invoke this (fun o =>
    ret tt (set_selectorString (s1 +:+ " " +:+ combinator +:+ " " +:+ s2) o)) ;;;
  ret this.

End CssSelectorBase.

(** ** The facade [cssSelectorBuilder] *)

Module cssSelectorBuilder.
Import CssSelectorBase.

Definition element (value : string) : program loc :=
  this <- new ;;; send this (CssSelectorBase.element value).

Definition id (value : string) : program loc :=
  this <- new ;;; send this (CssSelectorBase.id value).

Definition class (value : string) : program loc :=
  this <- new ;;; send this (CssSelectorBase.class value).

Definition attr (value : string) : program loc :=
  this <- new ;;; send this (CssSelectorBase.attr value).

Definition pseudoClass (value : string) : program loc :=
  this <- new ;;; send this (CssSelectorBase.pseudoClass value).

Definition pseudoElement (value : string) : program loc :=
  this <- new ;;; send this (CssSelectorBase.pseudoElement value).

Definition combine (selector1 : loc) (combinator : string) (selector2 : loc) :
    program loc :=
  this <- new ;;; CssSelectorBase.combine this selector1 combinator selector2.

Definition stringify : program string := ret "".
End cssSelectorBuilder.

Import CssSelectorBase.

(** ** Calls and traces

    The selector parts, in the canonical order, to quantify over the six
    fragment-adding methods. *)
Inductive part : Type :=
| Element | Id | Class | Attr | PseudoClass | PseudoElement.

Definition parts : list part := [Element; Id; Class; Attr; PseudoClass; PseudoElement].

(** The method of [CssSelectorBase] that adds a fragment of part [p]. *)
Definition add (p : part) (value : string) : method unit :=
  match p with
  | Element => CssSelectorBase.element value
  | Id => CssSelectorBase.id value
  | Class => CssSelectorBase.class value
  | Attr => CssSelectorBase.attr value
  | PseudoClass => CssSelectorBase.pseudoClass value
  | PseudoElement => CssSelectorBase.pseudoElement value
  end.

(** The entry of the facade for part [p]. *)
Definition builder (p : part) (value : string) : program loc :=
  match p with
  | Element => cssSelectorBuilder.element value
  | Id => cssSelectorBuilder.id value
  | Class => cssSelectorBuilder.class value
  | Attr => cssSelectorBuilder.attr value
  | PseudoClass => cssSelectorBuilder.pseudoClass value
  | PseudoElement => cssSelectorBuilder.pseudoElement value
  end.

(** What a client of the module can do, one call at a time: the entries of
    the facade, and the methods of the selectors it got back. *)
Inductive call : Type :=
| builder_add (p : part) (value : string)
| builder_combine (selector1 : loc) (combinator : string) (selector2 : loc)
| builder_stringify
| obj_add (this : loc) (p : part) (value : string)
| obj_combine (this selector1 : loc) (combinator : string) (selector2 : loc)
| obj_stringify (this : loc).

(** What a call returns: a selector (for chaining) or a string. *)
Inductive value : Type :=
| Ref (l : loc)
| Str (s : string).

Definition exec (c : call) : program value :=
  match c with
  | builder_add p v => l <- builder p v ;;; ret (Ref l)
  | builder_combine s1 c s2 => l <- cssSelectorBuilder.combine s1 c s2 ;;; ret (Ref l)
  | builder_stringify => s <- cssSelectorBuilder.stringify ;;; ret (Str s)
  | obj_add this p v => l <- send this (add p v) ;;; ret (Ref l)
  | obj_combine this s1 c s2 => l <- CssSelectorBase.combine this s1 c s2 ;;; ret (Ref l)
  | obj_stringify this => s <- invoke this stringify ;;; ret (Str s)
  end.

(** A client that goes on after an exception (it caught it): the heap and
    the completion of every call. *)
Fixpoint run (cs : list call) (h : heap) : heap * list (completion value) :=
  match cs with
  | [] => (h, [])
  | c :: cs' =>
      let (h', r) := exec c h in
      let (h'', rs) := run cs' h' in
      (h'', r :: rs)
  end.

(** A chain [this.m1(v1).m2(v2)...] of fragment additions on one receiver. *)
Fixpoint chain (adds : list (part * string)) : method unit :=
  match adds with
  | [] => ret tt
  | (p, v) :: adds' => add p v ;;; chain adds'
  end.

(** * Part II: the vocabulary of the properties *)

(** ** Reading the state of a selector by part *)

(** The key of part [p] in [correctOrder] (the key in [params] is the same,
    except [className] for [class]). *)
Definition key (p : part) : string :=
  match p with
  | Element => "element"
  | Id => "id"
  | Class => "class"
  | Attr => "attr"
  | PseudoClass => "pseudoClass"
  | PseudoElement => "pseudoElement"
  end.

(** The fragments of part [p]. *)
Definition fragments (p : part) (ps : Params.t) : list string :=
  match p with
  | Element => Params.element ps
  | Id => Params.id ps
  | Class => Params.className ps
  | Attr => Params.attr ps
  | PseudoClass => Params.pseudoClass ps
  | PseudoElement => Params.pseudoElement ps
  end.

(** The position of a part in the canonical order. *)
Definition rank (p : part) : nat :=
  match p with
  | Element => 0
  | Id => 1
  | Class => 2
  | Attr => 3
  | PseudoClass => 4
  | PseudoElement => 5
  end.

(** Part [p] has been touched: its flag in [correctOrder] is set. *)
Definition touched (p : part) (this : t) : bool :=
  CorrectOrder.get (key p) (correctOrder this).

(** Some part strictly later than [p] in the canonical order has been
    touched. *)
Definition later_touched (p : part) (this : t) : bool :=
  existsb (fun q => Nat.ltb (rank p) (rank q) && touched q this) parts.

(** The methods that call [checkForOccurance] before [checkForOrder]. *)
Definition occurrence_first (p : part) : bool :=
  match p with Element | Id => true | _ => false end.

(** The methods that call [checkForOccurance] at all. *)
Definition single (p : part) : bool :=
  match p with Element | Id | PseudoElement => true | _ => false end.

Definition is_nil {A} (l : list A) : bool :=
  match l with [] => true | _ => false end.

(** The receiver with the flag of [p] set. *)
Definition touch (p : part) (this : t) : t :=
  set_correctOrder (CorrectOrder.set_true (key p) (correctOrder this)) this.

(** The receiver with [value] pushed on the fragments of [p]. *)
Definition push (p : part) (value : string) (this : t) : t :=
  fst (match p with
       | Element => push_element value this
       | Id => push_id value this
       | Class => push_className value this
       | Attr => push_attr value this
       | PseudoClass => push_pseudoClass value this
       | PseudoElement => push_pseudoElement value this
       end).

(** ** The rendering of the specification

    Prefix, join separator and suffix of each part, from the table of the
    specification; a part with no fragment contributes nothing. *)
Definition prefix (p : part) : string :=
  match p with
  | Element => ""
  | Id => "#"
  | Class => "."
  | Attr => "["
  | PseudoClass => ":"
  | PseudoElement => "::"
  end.

Definition separator (p : part) : string :=
  match p with
  | Element => ""
  | Id => "#"
  | Class => "."
  | Attr => "]["
  | PseudoClass => ":"
  | PseudoElement => "::"
  end.

Definition suffix (p : part) : string :=
  match p with
  | Attr => "]"
  | _ => ""
  end.

Definition render_part (p : part) (frs : list string) : string :=
  match frs with
  | [] => ""
  | _ => prefix p +:+ String.concat (separator p) frs +:+ suffix p
  end.

(** The concatenation, in the canonical order, of the rendered parts. *)
Definition render (frs : part -> list string) : string :=
  String.concat "" (map (fun p => render_part p (frs p)) parts).

#[global] Instance part_eq_dec : EqDecision part.
Proof. solve_decision. Defined.

(** ** Chains of additions *)

(** The parts of a chain are strictly increasing, starting at rank [n]. *)
Fixpoint increasing_from (n : nat) (adds : list (part * string)) : bool :=
  match adds with
  | [] => true
  | (p, _) :: adds' => Nat.leb n (rank p) && increasing_from (S (rank p)) adds'
  end.

Definition strictly_increasing (adds : list (part * string)) : bool :=
  increasing_from 0 adds.

(** The fragments a chain adds to part [q], in the order of the chain. *)
Definition added (q : part) (adds : list (part * string)) : list string :=
  map snd (List.filter (fun a => bool_decide (fst a = q)) adds).

(** Nothing at rank [n] or above is touched or holds a fragment. *)
Definition clear_from (n : nat) (this : t) : Prop :=
  forall q, n <= rank q -> touched q this = false /\ fragments q (params this) = [].

(** ** Invariants and observation *)

(** The program keeps [P] on all objects of the heap. *)
Definition preserves (P : t -> Prop) {A} (m : program A) : Prop :=
  forall h, Forall P h -> Forall P (fst (m h)).

(** [element], [id] and [pseudoElement] hold one fragment at most. *)
Definition at_most_one (o : t) : Prop :=
  forall p, single p = true -> length (fragments p (params o)) <= 1.

(** Two selector objects are observably the same when they hold the same
    fragments and the same [selectorString] and, seen from every part, agree
    on whether a later part is touched: the flags are read by
    [checkForOrder] only, and only through that question. *)
Definition sim (a b : t) : Prop :=
  params a = params b /\
  selectorString a = selectorString b /\
  forall q, later_touched q a = later_touched q b.

(** A program maps observably equal heaps to observably equal heaps, with
    the same completion. *)
Definition respects {A} (m : program A) : Prop :=
  forall h1 h2, Forall2 sim h1 h2 ->
    snd (m h1) = snd (m h2) /\ Forall2 sim (fst (m h1)) (fst (m h2)).

(** A part that holds a fragment is touched: every successful addition
    went through [checkForOrder]. *)
Definition fragments_touched (o : t) : Prop :=
  forall p, fragments p (params o) <> [] -> touched p o = true.

(** ** Prototypes of the examples *)

(** [Object.prototype]: writable data properties, and the accessor
    [__proto__], whose setter gives the receiver no own property. *)
Definition Object_prototype : list (string * property) :=
  [("constructor", Data true); ("hasOwnProperty", Data true);
   ("isPrototypeOf", Data true); ("propertyIsEnumerable", Data true);
   ("toLocaleString", Data true); ("toString", Data true); ("valueOf", Data true);
   ("__proto__", Accessor (Some (fun _ => ret tt)))].

(** The prototype of [class Circle { get area() { ... } }]. *)
Definition Circle_prototype : list (string * property) :=
  [("constructor", Data true); ("area", Accessor None)].

(** The prototype of [class Circle { getArea() { ... } }]. *)
Definition Circle_prototype_method : list (string * property) :=
  [("constructor", Data true); ("getArea", Data true)].

(** An assignment to the key creates an own property: the key resolves to
    nothing along the prototype chain, or to a writable data property. *)
Definition assignable (p : prototype) (k : string) : bool :=
  match inherited k p with
  | None | Some (Data true) => true
  | _ => false
  end.

(** ** The fragment of JSON that the codec covers *)

(** The text does not go on with a digit. *)
Definition no_digit_head (s : string) : bool :=
  match s with
  | String c _ => match JSON.digit c with Some _ => false | None => true end
  | EmptyString => true
  end.

(** The characters the codec writes as they are or with a two-character
    escape. *)
Definition plain_char (c : ascii) : bool :=
  negb (N_of_ascii c <? 32)%N
  || Ascii.eqb c "008" || Ascii.eqb c "009" || Ascii.eqb c "010"
  || Ascii.eqb c "012" || Ascii.eqb c "013".

Fixpoint plain_string (s : string) : bool :=
  match s with
  | EmptyString => true
  | String c s' => plain_char c && plain_string s'
  end.

(** The values of the fragment: every string, key or value, is plain. *)
Fixpoint plain (v : json) : bool :=
  match v with
  | JString s => plain_string s
  | JArray xs => forallb plain xs
  | JObject fields => forallb (fun kv => plain_string (fst kv) && plain (snd kv)) fields
  | _ => true
  end.

(** Fuel enough to parse the text of a value. *)
Fixpoint cost (v : json) : nat :=
  match v with
  | JArray xs => S (length xs + list_sum (map cost xs))
  | JObject fields => S (2 * length fields + list_sum (map (fun kv => cost (snd kv)) fields))
  | _ => 1
  end.

(** The text of an array after its first element, and of an object after
    its first member. *)
Fixpoint elements_text (xs : list json) (rest : string) : string :=
  match xs with
  | [] => "]" +:+ rest
  | x :: xs' => "," +:+ JSON.stringify x +:+ elements_text xs' rest
  end.

Definition member_text (kv : string * json) : string :=
  JSON.quote (fst kv) +:+ ":" +:+ JSON.stringify (snd kv).

Fixpoint members_text (fields : list (string * json)) (rest : string) : string :=
  match fields with
  | [] => "}" +:+ rest
  | kv :: fields' => "," +:+ member_text kv +:+ members_text fields' rest
  end.

(** A character that starts a value: no white space, no closing bracket. *)
Definition starts_value (c : ascii) : bool :=
  negb (JSON.is_ws c) && negb (Ascii.eqb c "]").

(** With fuel enough, the parser reads the text of [x] back, whatever
    follows it (but a digit, which would extend a number). *)
Definition parses (x : json) : Prop :=
  forall fuel rest,
    cost x <= fuel -> no_digit_head rest = true ->
    JSON.parse_value fuel (JSON.stringify x +:+ rest) = Some (x, rest).

(** ** Further vocabulary *)

(** The receiver after [n] calls of [stringify()]. *)
Fixpoint stringify_n (n : nat) (this : t) : t :=
  match n with
  | O => this
  | S n' => stringify_n n' (fst (stringify this))
  end.

(** [n] copies of a string, one after the other. *)
Fixpoint copies (n : nat) (r : string) : string :=
  match n with
  | O => ""
  | S n' => r +:+ copies n' r
  end.

(** Some part strictly later than [p] in the canonical order holds a
    fragment. *)
Definition later_present (p : part) (this : t) : bool :=
  existsb (fun q => Nat.ltb (rank p) (rank q) && negb (is_nil (fragments q (params this))))
    parts.

(** The chains a fresh builder accepts: after a fragment of part [q], a
    fragment of a later part, or one more of [q] when [q] is [class], [attr]
    or [pseudoClass]. *)
Fixpoint accepted (last : option part) (adds : list (part * string)) : bool :=
  match adds with
  | [] => true
  | (p, _) :: adds' =>
      match last with
      | None => true
      | Some q => Nat.ltb (rank q) (rank p) || (bool_decide (p = q) && negb (single p))
      end && accepted (Some p) adds'
  end.

(** An object has only grown: its fragments are extended at the end, and
    the flags that were set are set. *)
Definition grows (o o' : t) : Prop :=
  (forall q, fragments q (params o) `prefix_of` fragments q (params o')) /\
  (forall q, touched q o = true -> touched q o' = true).

(** The selectors a call names. *)
Definition names (c : call) : list loc :=
  match c with
  | builder_add _ _ => []
  | builder_combine s1 _ s2 => [s1; s2]
  | builder_stringify => []
  | obj_add this _ _ => [this]
  | obj_combine this s1 _ s2 => [this; s1; s2]
  | obj_stringify this => [this]
  end.

(** The key resolves to an accessor with a setter along the chain. *)
Definition has_setter (p : prototype) (k : string) : bool :=
  match inherited k p with
  | Some (Accessor (Some _)) => true
  | _ => false
  end.

(** [r.getArea] read, and [r.getArea = f] for a function read from a
    rectangle. *)
Definition get_getArea {number : Type} (r : Rectangle.ref) :
    M (Rectangle.heap number) Rectangle.closure :=
  fun h =>
    match h !! r with
    | Some o => ret (Rectangle.getArea o) h
    | None => throw Rectangle.not_an_object h
    end.

Definition set_getArea {number : Type} (r : Rectangle.ref) (f : Rectangle.closure) :
    M (Rectangle.heap number) unit :=
  fun h =>
    match h !! r with
    | Some o =>
        ret tt (<[r := Rectangle.mk (Rectangle.width o) (Rectangle.height o) f]> h)
    | None => throw Rectangle.not_an_object h
    end.

(** The state a chain has reached: nothing touched and no fragment at all,
    or a fragment of part [q] and nothing touched and no fragment after
    [q]. *)
Definition tip (last : option part) (o : t) : Prop :=
  match last with
  | None => clear_from 0 o
  | Some q =>
      touched q o = true /\ fragments q (params o) <> [] /\ clear_from (S (rank q)) o
  end.

(** The flags tell as much as the fragments: a part that holds a fragment
    is touched, and a later part is touched exactly when a later part holds a
    fragment. *)
Definition flags_follow_fragments (o : t) : Prop :=
  fragments_touched o /\ forall p, later_touched p o = later_present p o.

(** Every object of the first heap is on the second, grown. *)
Definition heap_grows (h h' : heap) : Prop :=
  forall l o, h !! l = Some o -> exists o', h' !! l = Some o' /\ grows o o'.

(** The program only lets the objects of the heap grow. *)
Definition extends {A} (m : program A) : Prop :=
  forall h, heap_grows h (fst (m h)).

(** The program frees nothing, and leaves the object at [l] as it is. *)
Definition keeps {A} (l : loc) (m : program A) : Prop :=
  forall h, length h <= length (fst (m h)) /\
            (l < length h -> fst (m h) !! l = h !! l).

(** * Part III: the properties *)

(** The examples of the documentation comment of the builder. *)
Example doc_example_1 :
  snd (run [builder_add Id "main"; obj_add 0 Class "container";
            obj_add 0 Class "editable"; obj_stringify 0] [])
  = [Return (Ref 0); Return (Ref 0); Return (Ref 0); Return (Str "#main.container.editable")].
Proof. reflexivity. Qed.

Example doc_example_2 :
  snd (run [builder_add Element "a"; obj_add 0 Attr ("href$=" +:+ dq +:+ ".png" +:+ dq);
            obj_add 0 PseudoClass "focus"; obj_stringify 0] [])
  = [Return (Ref 0); Return (Ref 0); Return (Ref 0);
     Return (Str ("a[href$=" +:+ dq +:+ ".png" +:+ dq +:+ "]:focus"))].
Proof. reflexivity. Qed.

Example doc_example_3 :
  last (snd (run
    [builder_add Element "div"; obj_add 0 Id "main"; obj_add 0 Class "container";
     obj_add 0 Class "draggable";
     builder_add Element "table"; obj_add 1 Id "data";
     builder_add Element "tr"; obj_add 2 PseudoClass "nth-of-type(even)";
     builder_add Element "td"; obj_add 3 PseudoClass "nth-of-type(even)";
     builder_combine 2 " " 3; builder_combine 1 "~" 4; builder_combine 0 "+" 5;
     obj_stringify 6] []))
  = Some (Return (Str
      "div#main.container.draggable + table#data ~ tr:nth-of-type(even)   td:nth-of-type(even)")).
Proof. reflexivity. Qed.

(** ** Basic facts *)

Lemma append_nil_r (s : string) : s +:+ "" = s.
Proof.
  induction s as [|a s IH]; [reflexivity|].
  change (String a s +:+ "") with (String a (s +:+ "")). now rewrite IH.
Qed.

Lemma append_assoc (s1 s2 s3 : string) : (s1 +:+ s2) +:+ s3 = s1 +:+ (s2 +:+ s3).
Proof.
  induction s1 as [|a s1 IH]; [reflexivity|].
  change (String a (s1 +:+ s2) +:+ s3 = String a (s1 +:+ (s2 +:+ s3))).
  change (String a ((s1 +:+ s2) +:+ s3) = String a (s1 +:+ (s2 +:+ s3))).
  now rewrite IH.
Qed.

Lemma errors_differ : DuplicateSelectorPartError <> SelectorOrderError.
Proof. discriminate. Qed.

(** [checkForOrder] always sets the flag of its part, and throws exactly
    when a later part has its flag set. *)
Lemma checkForOrder_spec (p : part) (this : t) :
  checkForOrder (key p) this
  = (touch p this, if later_touched p this then Throw SelectorOrderError else Return tt).
Proof.
  destruct this as [ps s [fe fi fc fa fpc fpe]].
  destruct p, fe, fi, fc, fa, fpc, fpe; reflexivity.
Qed.

Lemma checkForOccurance_spec (p : part) (this : t) :
  single p = true ->
  checkForOccurance (key p) this
  = (this, if is_nil (fragments p (params this)) then Return tt
           else Throw DuplicateSelectorPartError).
Proof.
  destruct this as [[e i c a pc pe] s o].
  destruct p; try discriminate; intros _; unfold checkForOccurance; cbn.
  - now destruct e.
  - now destruct i.
  - now destruct pe.
Qed.

(** What a fragment-adding method does, case by case. *)
Lemma add_spec (p : part) (v : string) (this : t) :
  add p v this =
    if occurrence_first p && negb (is_nil (fragments p (params this))) then
      (this, Throw DuplicateSelectorPartError)
    else if later_touched p this then
      (touch p this, Throw SelectorOrderError)
    else if single p && negb (is_nil (fragments p (params this))) then
      (touch p this, Throw DuplicateSelectorPartError)
    else (push p v (touch p this), Return tt).
Proof.
  destruct p; unfold add, element, id, class, attr, pseudoClass, pseudoElement, bind.
  - rewrite (checkForOccurance_spec Element) by reflexivity.
    destruct (is_nil _); [|reflexivity].
    rewrite (checkForOrder_spec Element). cbn [occurrence_first single andb negb].
    now destruct (later_touched _ _).
  - rewrite (checkForOccurance_spec Id) by reflexivity.
    destruct (is_nil _); [|reflexivity].
    rewrite (checkForOrder_spec Id). cbn [occurrence_first single andb negb].
    now destruct (later_touched _ _).
  - rewrite (checkForOrder_spec Class). cbn [occurrence_first single andb negb].
    now destruct (later_touched _ _).
  - rewrite (checkForOrder_spec Attr). cbn [occurrence_first single andb negb].
    now destruct (later_touched _ _).
  - rewrite (checkForOrder_spec PseudoClass). cbn [occurrence_first single andb negb].
    now destruct (later_touched _ _).
  - rewrite (checkForOrder_spec PseudoElement). cbn [occurrence_first single andb negb].
    replace (later_touched PseudoElement this) with false
      by reflexivity.
    rewrite (checkForOccurance_spec PseudoElement) by reflexivity.
    cbn [fragments params touch set_correctOrder].
    now destruct (is_nil _).
Qed.

(** One step of [stringify]: the rendered part is appended to
    [selectorString]. *)
Lemma addElementToSelectorString_spec (p : part) (frs : list string)
    (pre sep post : option string) (this : t) :
  or_empty pre = prefix p -> or_empty sep = separator p -> or_empty post = suffix p ->
  addElementToSelectorString frs pre sep post this
  = (set_selectorString (selectorString this +:+ render_part p frs) this, Return tt).
Proof.
  intros Hpre Hsep Hpost.
  unfold addElementToSelectorString, render_part, join, ret.
  rewrite Hpre, Hsep, Hpost.
  destruct frs as [|fr frs]; cbn [length Nat.eqb]; [|reflexivity].
  rewrite append_nil_r. now destruct this.
Qed.

Lemma render_unfold (frs : part -> list string) :
  render frs
  = render_part Element (frs Element) +:+ render_part Id (frs Id) +:+
    render_part Class (frs Class) +:+ render_part Attr (frs Attr) +:+
    render_part PseudoClass (frs PseudoClass) +:+
    render_part PseudoElement (frs PseudoElement).
Proof. reflexivity. Qed.

(** [stringify] refines the rendering of the specification, appended to
    what [selectorString] already holds; it stores what it returns. *)
Lemma stringify_spec (this : t) :
  stringify this
  = (set_selectorString
       (selectorString this +:+ render (fun p => fragments p (params this))) this,
     Return (selectorString this +:+ render (fun p => fragments p (params this)))).
Proof.
  unfold stringify, bind.
  rewrite (addElementToSelectorString_spec Element) by reflexivity.
  cbn [params set_selectorString selectorString correctOrder].
  rewrite (addElementToSelectorString_spec Id) by reflexivity.
  cbn [params set_selectorString selectorString correctOrder].
  rewrite (addElementToSelectorString_spec Class) by reflexivity.
  cbn [params set_selectorString selectorString correctOrder].
  rewrite (addElementToSelectorString_spec Attr) by reflexivity.
  cbn [params set_selectorString selectorString correctOrder].
  rewrite (addElementToSelectorString_spec PseudoClass) by reflexivity.
  cbn [params set_selectorString selectorString correctOrder].
  rewrite (addElementToSelectorString_spec PseudoElement) by reflexivity.
  cbn [params set_selectorString selectorString correctOrder ret].
  rewrite render_unfold. cbn [fragments].
  rewrite !append_assoc. reflexivity.
Qed.

(** ** How [touch] and [push] change what can be observed *)

Lemma params_touch (p : part) (this : t) : params (touch p this) = params this.
Proof. reflexivity. Qed.

Lemma selectorString_touch (p : part) (this : t) :
  selectorString (touch p this) = selectorString this.
Proof. reflexivity. Qed.

Lemma touched_touch (q p : part) (this : t) :
  touched q (touch p this) = touched q this || bool_decide (q = p).
Proof.
  destruct this as [ps s [fe fi fc fa fpc fpe]].
  destruct q, p; cbn; now rewrite ?orb_true_r, ?orb_false_r.
Qed.

Lemma later_touched_touch (q p : part) (this : t) :
  later_touched q (touch p this) = later_touched q this || Nat.ltb (rank q) (rank p).
Proof.
  destruct this as [ps s [fe fi fc fa fpc fpe]].
  destruct q, p, fe, fi, fc, fa, fpc, fpe; reflexivity.
Qed.

Lemma correctOrder_push (p : part) (v : string) (this : t) :
  correctOrder (push p v this) = correctOrder this.
Proof. now destruct p. Qed.

Lemma selectorString_push (p : part) (v : string) (this : t) :
  selectorString (push p v this) = selectorString this.
Proof. now destruct p. Qed.

Lemma touched_push (q p : part) (v : string) (this : t) :
  touched q (push p v this) = touched q this.
Proof. unfold touched. now rewrite correctOrder_push. Qed.

Lemma later_touched_push (q p : part) (v : string) (this : t) :
  later_touched q (push p v this) = later_touched q this.
Proof. unfold later_touched, touched. now rewrite correctOrder_push. Qed.

Lemma fragments_push (q p : part) (v : string) (this : t) :
  fragments q (params (push p v this))
  = if bool_decide (q = p) then fragments q (params this) ++ [v]
    else fragments q (params this).
Proof. now destruct q, p. Qed.

(** A later part that is touched is seen from every earlier part. *)
Lemma later_touched_mono (q p : part) (this : t) :
  rank q <= rank p -> later_touched p this = true -> later_touched q this = true.
Proof.
  destruct this as [ps s [fe fi fc fa fpc fpe]].
  destruct q, p; cbn; try lia; intros _;
    destruct fe, fi, fc, fa, fpc, fpe; cbn; congruence.
Qed.

(** ** C1: [stringify] called twice *)

(** Every call of [stringify] appends the rendering of the fragments to
    [selectorString] once more. *)
Lemma stringify_stringify (this : t) :
  let r := render (fun p => fragments p (params this)) in
  snd (stringify this) = Return (selectorString this +:+ r) /\
  snd (stringify (fst (stringify this))) = Return ((selectorString this +:+ r) +:+ r).
Proof.
  cbv zeta. rewrite !stringify_spec.
  cbn [fst snd params selectorString set_selectorString]. now split.
Qed.

Lemma length_append (s1 s2 : string) :
  String.length (s1 +:+ s2) = String.length s1 + String.length s2.
Proof.
  induction s1 as [|a s1 IH]; [reflexivity|].
  change (S (String.length (s1 +:+ s2)) = S (String.length s1 + String.length s2)).
  now rewrite IH.
Qed.

(** So the second call returns another string than the first, whenever the
    fragments render to anything. *)
Lemma stringify_twice_differs (this : t) :
  render (fun p => fragments p (params this)) <> "" ->
  snd (stringify (fst (stringify this))) <> snd (stringify this).
Proof.
  intros Hr. destruct (stringify_stringify this) as [H1 H2]. cbv zeta in *.
  rewrite H1, H2. intros Heq. injection Heq as Heq.
  apply (f_equal String.length) in Heq. rewrite !length_append in Heq.
  destruct (render _) as [|c r]; [congruence | cbn in Heq; lia].
Qed.

(** C1 (the code departs from the claim): on the selector built by
    [cssSelectorBuilder.element('a')], the first [stringify()] returns ['a']
    and the second returns ['aa']: the second call does not return the same
    string, and the first call has changed the selector. *)
Theorem stringify_twice_element_a :
  snd (run [builder_add Element "a"; obj_stringify 0; obj_stringify 0] [])
  = [Return (Ref 0); Return (Str "a"); Return (Str "aa")].
Proof. reflexivity. Qed.

(** ** C2 and C7: additions in the canonical order *)

(** An addition succeeds when no later part is touched and, for [element],
    [id] and [pseudoElement], the part has no fragment yet. *)
Lemma add_ok (p : part) (v : string) (this : t) :
  later_touched p this = false ->
  single p && negb (is_nil (fragments p (params this))) = false ->
  add p v this = (push p v (touch p this), Return tt).
Proof.
  intros Hlater Hsingle. rewrite add_spec, Hlater, Hsingle.
  destruct p; cbn [occurrence_first single andb] in *; try reflexivity;
    now rewrite Hsingle.
Qed.

Lemma clear_from_later_touched (n : nat) (p : part) (this : t) :
  clear_from n this -> n <= rank p -> later_touched p this = false.
Proof.
  intros Hclear Hn. unfold later_touched, parts. cbn [existsb].
  repeat match goal with
  | |- context [Nat.ltb (rank p) (rank ?q) && touched ?q this] =>
      lazymatch q with
      | p => fail
      | _ =>
        let H := fresh in
        assert (Nat.ltb (rank p) (rank q) && touched q this = false) as H
          by (destruct (Nat.ltb_spec (rank p) (rank q)) as [Hlt|]; [|reflexivity];
              cbn [andb]; apply Hclear; lia);
        rewrite H; clear H
      end
  end.
  destruct p; reflexivity.
Qed.

Lemma clear_from_push_touch (n : nat) (p : part) (v : string) (this : t) :
  clear_from n this -> n <= rank p -> clear_from (S (rank p)) (push p v (touch p this)).
Proof.
  intros Hclear Hn q Hq.
  rewrite touched_push, touched_touch, fragments_push, params_touch.
  assert (q <> p) as Hne by (intros ->; lia).
  rewrite !bool_decide_eq_false_2 by assumption.
  rewrite orb_false_r. apply Hclear. lia.
Qed.

Lemma chain_increasing (adds : list (part * string)) :
  forall (n : nat) (this : t),
    clear_from n this -> increasing_from n adds = true ->
    snd (chain adds this) = Return tt /\
    selectorString (fst (chain adds this)) = selectorString this /\
    forall q, fragments q (params (fst (chain adds this)))
              = fragments q (params this) ++ added q adds.
Proof.
  induction adds as [|[p v] adds IH]; intros n this Hclear Hinc.
  - cbn. split; [reflexivity|]. split; [reflexivity|].
    intros q. now rewrite app_nil_r.
  - cbn [increasing_from] in Hinc. apply andb_true_iff in Hinc as [Hn Hinc].
    apply Nat.leb_le in Hn.
    cbn [chain]. unfold bind.
    rewrite add_ok.
    + destruct (IH _ _ (clear_from_push_touch n p v this Hclear Hn) Hinc)
        as (Hret & Hsel & Hfr).
      split; [exact Hret|]. split.
      * now rewrite Hsel, selectorString_push, selectorString_touch.
      * intros q. rewrite Hfr, fragments_push, params_touch.
        unfold added. cbn [List.filter fst].
        destruct (decide (q = p)) as [->|Hne].
        -- rewrite !bool_decide_eq_true_2 by reflexivity. cbn [map snd].
           now rewrite <- app_assoc.
        -- rewrite !bool_decide_eq_false_2 by congruence.
           reflexivity.
    + now apply (clear_from_later_touched n).
    + destruct (Hclear p Hn) as [_ ->]. now rewrite andb_false_r.
Qed.

Lemma clear_from_constructor : clear_from 0 constructor.
Proof. intros q _. now destruct q. Qed.

(** C2: a chain of fragment additions on a fresh builder whose parts are
    strictly increasing in the canonical order raises no error, and
    [stringify()] then returns the concatenation, in the canonical order, of
    each non-empty part's fragments joined with its separator and wrapped in
    its prefix and suffix. *)
Theorem chain_strictly_increasing_stringify (adds : list (part * string)) :
  strictly_increasing adds = true ->
  snd (chain adds constructor) = Return tt /\
  snd (stringify (fst (chain adds constructor)))
  = Return (render (fun p => added p adds)).
Proof.
  intros Hinc.
  destruct (chain_increasing adds 0 constructor clear_from_constructor Hinc)
    as (Hret & Hsel & Hfr).
  split; [exact Hret|].
  rewrite stringify_spec. cbn [snd]. rewrite Hsel. cbn [selectorString constructor].
  f_equal. change ("" +:+ ?s) with s.
  unfold render. f_equal. apply map_ext. intros p. rewrite Hfr. now destruct p.
Qed.

(** The example of C2:
    [element('a').attr('href$=".png"').pseudoClass('focus').stringify()]. *)
Lemma chain_strictly_increasing_stringify_witness :
  strictly_increasing
    [(Element, "a"); (Attr, "href$=" +:+ dq +:+ ".png" +:+ dq); (PseudoClass, "focus")]
  = true /\
  snd (stringify (fst (chain
    [(Element, "a"); (Attr, "href$=" +:+ dq +:+ ".png" +:+ dq); (PseudoClass, "focus")]
    constructor)))
  = Return ("a[href$=" +:+ dq +:+ ".png" +:+ dq +:+ "]:focus").
Proof.
  split; [reflexivity|].
  exact (proj2 (chain_strictly_increasing_stringify
    [(Element, "a"); (Attr, "href$=" +:+ dq +:+ ".png" +:+ dq); (PseudoClass, "focus")]
    eq_refl)).
Defined.

Lemma chain_same_part (p : part) (vs : list string) :
  forall this : t,
    single p = false -> later_touched p this = false ->
    snd (chain (map (pair p) vs) this) = Return tt /\
    selectorString (fst (chain (map (pair p) vs) this)) = selectorString this /\
    forall q, fragments q (params (fst (chain (map (pair p) vs) this)))
              = if bool_decide (q = p) then fragments q (params this) ++ vs
                else fragments q (params this).
Proof.
  induction vs as [|v vs IH]; intros this Hsingle Hlater.
  - cbn. split; [reflexivity|]. split; [reflexivity|].
    intros q. destruct (bool_decide (q = p)); [now rewrite app_nil_r | reflexivity].
  - cbn [map chain]. unfold bind.
    rewrite add_ok by (rewrite ?Hsingle; auto).
    destruct (IH (push p v (touch p this))) as (Hret & Hsel & Hfr); [assumption| |].
    { rewrite later_touched_push, later_touched_touch, Hlater, Nat.ltb_irrefl.
      reflexivity. }
    split; [exact Hret|]. split.
    + now rewrite Hsel, selectorString_push, selectorString_touch.
    + intros q. rewrite Hfr, fragments_push, params_touch.
      destruct (bool_decide (q = p)); [now rewrite <- app_assoc | reflexivity].
Qed.

(** C7: on every builder on which no part later than [class] (resp. [attr],
    [pseudoClass]) is touched, any number of additions of that part succeed;
    they are appended to the fragments of the part in the order of the
    calls, the other parts are unchanged, and [stringify()] renders the
    fragments of each part in that order. *)
Theorem multiple_additions_in_order (p : part) (vs : list string) (this : t) :
  single p = false -> later_touched p this = false ->
  snd (chain (map (pair p) vs) this) = Return tt /\
  (forall q, fragments q (params (fst (chain (map (pair p) vs) this)))
             = if bool_decide (q = p) then fragments q (params this) ++ vs
               else fragments q (params this)) /\
  snd (stringify (fst (chain (map (pair p) vs) this)))
  = Return (selectorString this +:+
            render (fun q => if bool_decide (q = p) then fragments q (params this) ++ vs
                             else fragments q (params this))).
Proof.
  intros Hsingle Hlater.
  destruct (chain_same_part p vs this Hsingle Hlater) as (Hret & Hsel & Hfr).
  split; [exact Hret|]. split; [exact Hfr|].
  rewrite stringify_spec. cbn [snd]. rewrite Hsel. do 2 f_equal.
  unfold render. f_equal. apply map_ext. intros q. now rewrite Hfr.
Qed.

(** [id('main').class('container').class('editable')], then three
    attributes. *)
Lemma multiple_additions_in_order_witness :
  snd (stringify (fst (chain (map (pair Attr) ["a"; "b"; "c"])
    (fst (chain [(Id, "main"); (Class, "container"); (Class, "editable")] constructor)))))
  = Return "#main.container.editable[a][b][c]".
Proof.
  exact (proj2 (proj2 (multiple_additions_in_order Attr ["a"; "b"; "c"]
    (fst (chain [(Id, "main"); (Class, "container"); (Class, "editable")] constructor))
    eq_refl eq_refl))).
Defined.

(** ** C3: when an addition raises the order error *)

(** C3 (as stated, refuted): on the builder [element('a').id('b')] the part
    [id], later than [element], is touched, and yet adding [element] raises
    the duplicate error, not the order error: [element] and [id] check the
    occurrence before the order. *)
Lemma order_error_counterexample :
  later_touched Element (fst (chain [(Element, "a"); (Id, "b")] constructor)) = true /\
  snd (add Element "c" (fst (chain [(Element, "a"); (Id, "b")] constructor)))
  = Throw DuplicateSelectorPartError /\
  snd (add Element "c" (fst (chain [(Element, "a"); (Id, "b")] constructor)))
  <> Throw SelectorOrderError.
Proof. repeat split. discriminate. Qed.

(** C3 (amended): adding a fragment of a part raises the order error exactly
    when some part strictly later in the canonical order has been touched
    and, for [element] and [id], the part holds no fragment yet (otherwise
    they raise the duplicate error first). *)
Theorem order_error_iff (p : part) (v : string) (this : t) :
  snd (add p v this) = Throw SelectorOrderError <->
  later_touched p this = true /\
  (occurrence_first p = true -> fragments p (params this) = []).
Proof.
  rewrite add_spec.
  destruct (occurrence_first p), (fragments p (params this)) as [|fr frs],
    (later_touched p this), (single p); cbn [andb negb is_nil snd];
    split; try discriminate; try reflexivity; try (intros _; now split).
  all: intros [Hlater Hnil]; try discriminate Hlater; now specialize (Hnil eq_refl).
Qed.

(** The two cases the claim names: [class] after [attr], and [element]
    after [id] (on a builder without element). *)
Lemma order_error_iff_witness :
  snd (add Class "c" (fst (chain [(Attr, "x")] constructor))) = Throw SelectorOrderError /\
  snd (add Element "e" (fst (chain [(Id, "i")] constructor))) = Throw SelectorOrderError.
Proof.
  split.
  - apply (proj2 (order_error_iff Class "c" (fst (chain [(Attr, "x")] constructor)))).
    split; [reflexivity | discriminate].
  - apply (proj2 (order_error_iff Element "e" (fst (chain [(Id, "i")] constructor)))).
    split; reflexivity.
Defined.

(** ** Invariants of the heap

    A property of selector objects that the constructor establishes and
    every method keeps holds of every object of every heap a client can
    reach. *)
Section Invariant.
Variable P : t -> Prop.
Hypothesis P_constructor : P constructor.
Hypothesis P_add : forall p v o, P o -> P (fst (add p v o)).
Hypothesis P_stringify : forall o, P o -> P (fst (stringify o)).
Hypothesis P_set_selectorString : forall s o, P o -> P (set_selectorString s o).

Lemma preserves_ret {A} (a : A) : preserves P (ret a).
Proof. intros h Hh. exact Hh. Qed.

Lemma preserves_bind {A B} (m : program A) (k : A -> program B) :
  preserves P m -> (forall a, preserves P (k a)) -> preserves P (bind m k).
Proof.
  intros Hm Hk h Hh. unfold bind. specialize (Hm h Hh).
  destruct (m h) as [h' [a|e]]; cbn [fst] in *; [now apply Hk | exact Hm].
Qed.

Lemma preserves_new : preserves P new.
Proof.
  intros h Hh. unfold new. cbn [fst]. apply Forall_app. split; [exact Hh|].
  now constructor.
Qed.

Lemma preserves_invoke {A} (this : loc) (m : method A) :
  (forall o, P o -> P (fst (m o))) -> preserves P (invoke this m).
Proof.
  intros Hm h Hh. unfold invoke.
  destruct (_ !! _) as [o|] eqn:Hthis; [|exact Hh].
  assert (P o) as Ho by (eapply Forall_lookup_1; eassumption).
  specialize (Hm o Ho). destruct (m o) as [o' r]. cbn [fst] in *.
  now apply Forall_insert.
Qed.

Lemma preserves_send (this : loc) (m : method unit) :
  (forall o, P o -> P (fst (m o))) -> preserves P (send this m).
Proof.
  intros Hm. apply preserves_bind; [now apply preserves_invoke|].
  intros _. apply preserves_ret.
Qed.

Lemma preserves_combine (this selector1 : loc) (c : string) (selector2 : loc) :
  preserves P (combine this selector1 c selector2).
Proof.
  unfold combine.
  apply preserves_bind; [now apply preserves_invoke|]. intros s1.
  apply preserves_bind; [now apply preserves_invoke|]. intros s2.
  apply preserves_bind; [|intros _; apply preserves_ret].
  apply preserves_invoke. intros o Ho. now apply P_set_selectorString.
Qed.

Lemma preserves_builder (p : part) (v : string) : preserves P (builder p v).
Proof.
  destruct p; (apply preserves_bind; [apply preserves_new|]); intros this;
    apply preserves_send; intros o Ho.
  - exact (P_add Element v o Ho).
  - exact (P_add Id v o Ho).
  - exact (P_add Class v o Ho).
  - exact (P_add Attr v o Ho).
  - exact (P_add PseudoClass v o Ho).
  - exact (P_add PseudoElement v o Ho).
Qed.

Lemma preserves_exec (c : call) : preserves P (exec c).
Proof.
  destruct c; cbn [exec];
    (apply preserves_bind; [|intros ?; apply preserves_ret]).
  - apply preserves_builder.
  - apply preserves_bind; [apply preserves_new|]. intros this.
    apply preserves_combine.
  - apply preserves_ret.
  - apply preserves_send. intros o Ho. now apply P_add.
  - apply preserves_combine.
  - now apply preserves_invoke.
Qed.

Lemma run_invariant (cs : list call) :
  forall h, Forall P h -> Forall P (fst (run cs h)).
Proof.
  induction cs as [|c cs IH]; intros h Hh; [exact Hh|].
  cbn [run]. pose proof (preserves_exec c h Hh) as Hc.
  destruct (exec c h) as [h' r]. cbn [fst] in Hc.
  specialize (IH h' Hc). destruct (run cs h') as [h'' rs]. exact IH.
Qed.

(** Every object a client can reach from the empty heap satisfies [P]. *)
Lemma reachable_invariant (cs : list call) (l : loc) (o : t) :
  fst (run cs []) !! l = Some o -> P o.
Proof.
  intros Hl. eapply Forall_lookup_1; [|exact Hl].
  apply run_invariant. constructor.
Qed.
End Invariant.

(** ** C4: [element], [id] and [pseudoElement] occur at most once *)

Lemma params_stringify (o : t) : params (fst (stringify o)) = params o.
Proof. now rewrite stringify_spec. Qed.

Lemma correctOrder_stringify (o : t) : correctOrder (fst (stringify o)) = correctOrder o.
Proof. now rewrite stringify_spec. Qed.

Lemma at_most_one_add (p : part) (v : string) (o : t) :
  at_most_one o -> at_most_one (fst (add p v o)).
Proof.
  intros Ho q Hq. rewrite add_spec.
  destruct (occurrence_first p && _); [now apply Ho|].
  destruct (later_touched p o); [now apply Ho|].
  destruct (single p && _) eqn:Hsingle; [now apply Ho|].
  cbn [fst]. rewrite fragments_push, params_touch.
  destruct (decide (q = p)) as [->|Hne].
  - rewrite bool_decide_eq_true_2 by reflexivity.
    rewrite Hq in Hsingle. cbn [andb] in Hsingle.
    destruct (fragments p (params o)); [cbn; lia | discriminate].
  - rewrite bool_decide_eq_false_2 by assumption. now apply Ho.
Qed.

Lemma at_most_one_reachable (cs : list call) (l : loc) (o : t) :
  fst (run cs []) !! l = Some o -> at_most_one o.
Proof.
  apply reachable_invariant.
  - intros p _. destruct p; cbn; lia.
  - apply at_most_one_add.
  - intros o' Ho' p Hp. rewrite params_stringify. now apply Ho'.
  - intros s o' Ho' p Hp. now apply Ho'.
Qed.

(** The completion of a fragment addition on an object of the heap. *)
Lemma exec_obj_add (h : heap) (l : loc) (o : t) (p : part) (v : string) :
  h !! l = Some o ->
  exec (obj_add l p v) h
  = (<[l := fst (add p v o)]> h,
     match snd (add p v o) with Return _ => Return (Ref l) | Throw e => Throw e end).
Proof.
  intros Hl. cbn [exec]. unfold send, bind, invoke, ret. rewrite Hl.
  now destruct (add p v o) as [o' [[]|e]].
Qed.

(** A chain that succeeds on the receiver is what a client gets who makes
    the same calls one after the other on the heap. *)
Lemma run_chain (adds : list (part * string)) :
  forall (h : heap) (l : loc) (o : t),
    h !! l = Some o -> snd (chain adds o) = Return tt ->
    run (map (fun a => obj_add l (fst a) (snd a)) adds) h
    = (<[l := fst (chain adds o)]> h, map (fun _ => Return (Ref l)) adds).
Proof.
  unfold heap, loc in *.
  induction adds as [|[p v] adds IH]; intros h l o Hl Hret.
  - cbn [map run chain]. unfold ret. cbn [fst].
    now rewrite (list_insert_id h l o Hl).
  - cbn [map run fst snd]. rewrite (exec_obj_add h l o p v Hl).
    cbn [chain] in *. unfold bind in *.
    destruct (add p v o) as [o1 [[]|e]]; [|discriminate]. cbn [fst snd].
    rewrite (IH _ l o1); [|apply list_lookup_insert_eq; eapply lookup_lt_Some; eassumption
                          |exact Hret].
    f_equal. apply list_insert_insert_eq.
Qed.

(** C4: on every builder a client can reach, adding [element] when an
    element is present raises the duplicate error, and likewise for [id] and
    [pseudoElement]; and each of these three parts holds at most one
    fragment. *)
Theorem single_parts_at_most_once (cs : list call) (l : loc) (o : t)
    (p : part) (v : string) :
  single p = true ->
  fst (run cs []) !! l = Some o ->
  length (fragments p (params o)) <= 1 /\
  (fragments p (params o) <> [] ->
   snd (exec (obj_add l p v) (fst (run cs []))) = Throw DuplicateSelectorPartError).
Proof.
  intros Hp Hl. split; [now apply (at_most_one_reachable cs l)|].
  intros Hne. rewrite (exec_obj_add _ l o) by exact Hl. cbn [snd].
  rewrite add_spec.
  destruct (fragments p (params o)) as [|fr frs]; [congruence|].
  destruct p; try discriminate; try reflexivity.
Qed.

(** [element('a')] followed by [element('b')] on the same builder. *)
Lemma single_parts_at_most_once_witness :
  snd (exec (obj_add 0 Element "b") (fst (run [builder_add Element "a"] [])))
  = Throw DuplicateSelectorPartError.
Proof.
  refine (proj2 (single_parts_at_most_once [builder_add Element "a"] 0
    (fst (add Element "a" constructor)) Element "b" eq_refl eq_refl) _).
  discriminate.
Defined.

(** ** C8: a failed addition cannot be observed *)
Lemma sim_refl (a : t) : sim a a.
Proof. now repeat split. Qed.

Lemma sim_touch (p : part) (a b : t) : sim a b -> sim (touch p a) (touch p b).
Proof.
  intros (Hp & Hs & Hl). repeat split; [exact Hp | exact Hs |].
  intros q. now rewrite !later_touched_touch, Hl.
Qed.

Lemma params_push (p : part) (v : string) (a b : t) :
  params a = params b -> params (push p v a) = params (push p v b).
Proof. destruct a, b, p; cbn; now intros ->. Qed.

Lemma sim_push (p : part) (v : string) (a b : t) : sim a b -> sim (push p v a) (push p v b).
Proof.
  intros (Hp & Hs & Hl). repeat split.
  - now apply params_push.
  - now rewrite !selectorString_push.
  - intros q. now rewrite !later_touched_push.
Qed.

Lemma sim_add (p : part) (v : string) (a b : t) :
  sim a b ->
  snd (add p v a) = snd (add p v b) /\ sim (fst (add p v a)) (fst (add p v b)).
Proof.
  intros Hab. pose proof Hab as (Hp & Hs & Hl).
  rewrite !add_spec, <- Hp, <- Hl.
  destruct (occurrence_first p && _); [now split|].
  destruct (later_touched p a); [split; [reflexivity | now apply sim_touch]|].
  destruct (single p && _); [split; [reflexivity | now apply sim_touch]|].
  split; [reflexivity|]. now apply sim_push, sim_touch.
Qed.

Lemma later_touched_stringify (q : part) (a : t) :
  later_touched q (fst (stringify a)) = later_touched q a.
Proof. now rewrite stringify_spec. Qed.

Lemma sim_stringify (a b : t) :
  sim a b ->
  snd (stringify a) = snd (stringify b) /\ sim (fst (stringify a)) (fst (stringify b)).
Proof.
  intros (Hp & Hs & Hl). rewrite !stringify_spec. cbn [fst snd].
  rewrite Hp, Hs. repeat split. exact Hp. exact Hl.
Qed.

Lemma sim_set_selectorString (s : string) (a b : t) :
  sim a b -> sim (set_selectorString s a) (set_selectorString s b).
Proof. intros (Hp & Hs & Hl). repeat split; [exact Hp | exact Hl]. Qed.

Lemma respects_ret {A} (a : A) : respects (ret a).
Proof. intros h1 h2 Hh. now split. Qed.

Lemma respects_bind {A B} (m : program A) (k : A -> program B) :
  respects m -> (forall a, respects (k a)) -> respects (bind m k).
Proof.
  intros Hm Hk h1 h2 Hh. unfold bind. destruct (Hm h1 h2 Hh) as [Hr Hh'].
  destruct (m h1) as [h1' r1], (m h2) as [h2' r2]. cbn [fst snd] in *. subst r2.
  destruct r1 as [a|e]; [now apply Hk | now split].
Qed.

Lemma respects_new : respects new.
Proof.
  intros h1 h2 Hh. unfold new. cbn [fst snd]. split.
  - now rewrite (Forall2_length _ _ _ Hh).
  - apply Forall2_app; [exact Hh|]. constructor; [apply sim_refl | constructor].
Qed.

Lemma respects_invoke {A} (this : loc) (m : method A) :
  (forall a b, sim a b -> snd (m a) = snd (m b) /\ sim (fst (m a)) (fst (m b))) ->
  respects (invoke this m).
Proof.
  intros Hm h1 h2 Hh. unfold invoke, heap, loc in *.
  destruct (h1 !! this) as [a|] eqn:H1.
  - destruct (Forall2_lookup_l _ _ _ _ _ Hh H1) as (b & H2 & Hab).
    rewrite H2.
    destruct (Hm a b Hab) as [Hr Hs].
    destruct (m a) as [a' r1], (m b) as [b' r2]. cbn [fst snd] in *.
    split; [exact Hr | now apply Forall2_insert].
  - assert (h2 !! this = None) as H2.
    { apply lookup_ge_None. rewrite <- (Forall2_length _ _ _ Hh).
      now apply lookup_ge_None. }
    rewrite H2. now split.
Qed.

Lemma respects_send (this : loc) (p : part) (v : string) : respects (send this (add p v)).
Proof.
  apply respects_bind; [|intros _; apply respects_ret].
  apply respects_invoke. intros a b. apply sim_add.
Qed.

Lemma respects_combine (this selector1 : loc) (c : string) (selector2 : loc) :
  respects (combine this selector1 c selector2).
Proof.
  unfold combine.
  apply respects_bind; [apply respects_invoke, sim_stringify|]. intros s1.
  apply respects_bind; [apply respects_invoke, sim_stringify|]. intros s2.
  apply respects_bind; [|intros _; apply respects_ret].
  apply respects_invoke. intros a b Hab. split; [reflexivity|].
  now apply sim_set_selectorString.
Qed.

Lemma respects_exec (c : call) : respects (exec c).
Proof.
  destruct c as [p v|s1 c s2| |this p v|this s1 c s2|this]; cbn [exec];
    (apply respects_bind; [|intros ?; apply respects_ret]).
  - destruct p; (apply respects_bind; [apply respects_new|]); intros this.
    + apply (respects_send this Element).
    + apply (respects_send this Id).
    + apply (respects_send this Class).
    + apply (respects_send this Attr).
    + apply (respects_send this PseudoClass).
    + apply (respects_send this PseudoElement).
  - apply respects_bind; [apply respects_new|]. intros this. apply respects_combine.
  - apply respects_ret.
  - apply respects_send.
  - apply respects_combine.
  - apply respects_invoke, sim_stringify.
Qed.

Lemma run_respects (cs : list call) :
  forall h1 h2, Forall2 sim h1 h2 -> snd (run cs h1) = snd (run cs h2).
Proof.
  induction cs as [|c cs IH]; intros h1 h2 Hh; [reflexivity|].
  cbn [run]. destruct (respects_exec c h1 h2 Hh) as [Hr Hh'].
  destruct (exec c h1) as [h1' r1], (exec c h2) as [h2' r2]. cbn [fst snd] in *.
  specialize (IH h1' h2' Hh').
  destruct (run cs h1') as [h1'' rs1], (run cs h2') as [h2'' rs2]. cbn [snd] in *.
  now subst.
Qed.

Lemma fragments_touched_touch (p : part) (o : t) :
  fragments_touched o -> fragments_touched (touch p o).
Proof.
  intros Ho q Hq. rewrite touched_touch. rewrite params_touch in Hq.
  now rewrite (Ho q Hq).
Qed.

Lemma fragments_touched_add (p : part) (v : string) (o : t) :
  fragments_touched o -> fragments_touched (fst (add p v o)).
Proof.
  intros Ho. rewrite add_spec.
  destruct (occurrence_first p && _); [exact Ho|].
  destruct (later_touched p o); [now apply fragments_touched_touch|].
  destruct (single p && _); [now apply fragments_touched_touch|].
  cbn [fst]. intros q Hq. rewrite touched_push, touched_touch.
  rewrite fragments_push, params_touch in Hq.
  destruct (bool_decide (q = p)); [now rewrite orb_true_r|].
  now rewrite (Ho q Hq).
Qed.

Lemma fragments_touched_reachable (cs : list call) (l : loc) (o : t) :
  fst (run cs []) !! l = Some o -> fragments_touched o.
Proof.
  apply reachable_invariant.
  - intros p Hp. now destruct p.
  - apply fragments_touched_add.
  - intros o' Ho' p Hp. rewrite params_stringify in Hp.
    unfold touched. rewrite correctOrder_stringify. now apply Ho'.
  - intros s o' Ho' p Hp. now apply Ho'.
Qed.

Lemma touched_later_touched (q p : part) (o : t) :
  touched p o = true -> rank q < rank p -> later_touched q o = true.
Proof.
  destruct o as [ps s [fe fi fc fa fpc fpe]].
  destruct q, p; cbn; try lia; intros -> _; now rewrite ?orb_true_r.
Qed.

(** The object a failed addition leaves behind is observably the one it
    found. *)
Lemma failed_add_sim (p : part) (v : string) (o : t) :
  fragments_touched o ->
  is_Throw (snd (add p v o)) = true -> sim (fst (add p v o)) o.
Proof.
  intros Ho. rewrite add_spec.
  destruct (occurrence_first p && _); [intros _; apply sim_refl|].
  destruct (later_touched p o) eqn:Hlater.
  - intros _. cbn [fst]. split; [reflexivity|]. split; [reflexivity|].
    intros q. rewrite later_touched_touch.
    destruct (Nat.ltb_spec (rank q) (rank p)) as [Hlt|_]; [|now rewrite orb_false_r].
    rewrite (later_touched_mono q p o) by (lia || assumption). reflexivity.
  - destruct (single p && negb (is_nil (fragments p (params o)))) eqn:Hsingle;
      [|discriminate].
    intros _. cbn [fst]. split; [reflexivity|]. split; [reflexivity|].
    intros q. rewrite later_touched_touch.
    destruct (Nat.ltb_spec (rank q) (rank p)) as [Hlt|_]; [|now rewrite orb_false_r].
    apply andb_true_iff in Hsingle as [_ Hfr].
    assert (touched p o = true) as Htouched.
    { apply Ho. intros Hnil. now rewrite Hnil in Hfr. }
    now rewrite (touched_later_touched q p o Htouched Hlt).
Qed.

(** C8: after any history of calls, a fragment addition that raises an
    error leaves a heap on which every continuation of calls ([stringify]
    among them) completes as it would have without the failed call: same
    returned strings, same successes, same errors. *)
Theorem failed_addition_is_atomic (history continuation : list call)
    (l : loc) (p : part) (v : string) :
  is_Throw (snd (exec (obj_add l p v) (fst (run history [])))) = true ->
  snd (run continuation (fst (exec (obj_add l p v) (fst (run history [])))))
  = snd (run continuation (fst (run history []))).
Proof.
  intros Hthrow. apply run_respects.
  destruct (fst (run history []) !! l) as [o|] eqn:Hl.
  - rewrite (exec_obj_add _ l o p v Hl) in *. cbn [fst snd] in *.
    rewrite <- (list_insert_id _ _ _ Hl) at 2.
    apply Forall2_insert.
    + apply Forall_Forall2_diag, Forall_forall. intros; apply sim_refl.
    + apply failed_add_sim.
      * now apply (fragments_touched_reachable history l).
      * now destruct (snd (add p v o)).
  - cbn [exec]. unfold send, bind, invoke, heap, loc in *. rewrite Hl. cbn [fst].
    apply Forall_Forall2_diag, Forall_forall. intros; apply sim_refl.
Qed.

(** On [attr('x')], the failed [class('c')] and what follows it. *)
Lemma failed_addition_is_atomic_witness :
  snd (run [obj_stringify 0; obj_add 0 Id "i"; obj_add 0 PseudoClass "hover";
            obj_stringify 0]
       (fst (exec (obj_add 0 Class "c") (fst (run [builder_add Attr "x"] [])))))
  = [Return (Str "[x]"); Throw SelectorOrderError; Return (Ref 0);
     Return (Str "[x][x]:hover")].
Proof.
  exact (failed_addition_is_atomic [builder_add Attr "x"]
    [obj_stringify 0; obj_add 0 Id "i"; obj_add 0 PseudoClass "hover"; obj_stringify 0]
    0 Class "c" eq_refl).
Defined.

(** ** C5 and C6: [combine] *)

(** What [cssSelectorBuilder.combine] does on two distinct operands: each
    is stringified once (and so keeps, in its [selectorString], what it
    returned), and the new selector holds the two strings around the
    combinator; its own [stringify()] returns that string. *)
Lemma combine_distinct (h : heap) (l1 l2 : loc) (o1 o2 : t) (c : string) :
  l1 <> l2 -> h !! l1 = Some o1 -> h !! l2 = Some o2 ->
  forall s1 s2,
    snd (stringify o1) = Return s1 -> snd (stringify o2) = Return s2 ->
    snd (run [builder_combine l1 c l2; obj_stringify (length h)] h)
    = [Return (Ref (length h)); Return (Str (s1 +:+ " " +:+ c +:+ " " +:+ s2))] /\
    fst (run [builder_combine l1 c l2] h) !! l1 = Some (fst (stringify o1)) /\
    fst (run [builder_combine l1 c l2] h) !! l2 = Some (fst (stringify o2)).
Proof.
  intros Hne H1 H2 s1 s2 Hs1 Hs2.
  assert (l1 < length h) as Hlt1 by (eapply lookup_lt_Some; eassumption).
  assert (l2 < length h) as Hlt2 by (eapply lookup_lt_Some; eassumption).
  cbn [run exec]. unfold cssSelectorBuilder.combine, combine, new, bind, invoke, ret.
  unfold heap, loc in *.
  rewrite (lookup_app_l _ _ _ Hlt1), H1.
  destruct (stringify o1) as [o1' r1] eqn:Ho1. cbn [snd fst] in *. subst r1.
  rewrite list_lookup_insert_ne by congruence.
  rewrite (lookup_app_l _ _ _ Hlt2), H2.
  destruct (stringify o2) as [o2' r2] eqn:Ho2. cbn [snd fst] in *. subst r2.
  assert (length (<[l2:=o2']> (<[l1:=o1']> (h ++ [constructor]))) = S (length h)) as Hlen
    by (rewrite !length_insert, length_app; cbn; lia).
  assert (<[l2:=o2']> (<[l1:=o1']> (h ++ [constructor])) !! length h = Some constructor)
    as Hnew.
  { rewrite !list_lookup_insert_ne by lia.
    rewrite lookup_app_r by lia. now rewrite Nat.sub_diag. }
  rewrite Hnew. cbn [fst snd].
  rewrite list_lookup_insert_eq by lia.
  repeat split.
  - rewrite !list_lookup_insert_ne by lia.
    rewrite list_lookup_insert_eq
      by (rewrite length_app; cbn; lia).
    reflexivity.
  - rewrite list_lookup_insert_ne by lia. apply list_lookup_insert_eq.
    rewrite length_insert, length_app; cbn; lia.
Qed.

(** The example of the claim: [div#main.container.draggable] combined with
    [table#data] by [+], on two fresh selectors. *)
Example combine_doc_example :
  last (snd (run
    [builder_add Element "div"; obj_add 0 Id "main"; obj_add 0 Class "container";
     obj_add 0 Class "draggable"; builder_add Element "table"; obj_add 1 Id "data";
     builder_combine 0 "+" 1; obj_stringify 2] []))
  = Some (Return (Str "div#main.container.draggable + table#data")).
Proof. reflexivity. Qed.

(** C5 (the code departs from the claim): combining the selector built by
    [cssSelectorBuilder.element('a')] with itself by [+] renders ['a + aa'],
    not ['a + a']: the first [stringify()] of the operand changes what the
    second returns. *)
Theorem combine_same_operand_twice :
  snd (run [builder_add Element "a"; builder_combine 0 "+" 0; obj_stringify 1] [])
  = [Return (Ref 0); Return (Ref 1); Return (Str "a + aa")].
Proof. reflexivity. Qed.

(** The same on distinct operands, one of which has been stringified
    before. *)
Example combine_stringified_operand :
  snd (run [builder_add Element "a"; builder_add Element "b"; obj_stringify 0;
            builder_combine 0 "+" 1; obj_stringify 2] [])
  = [Return (Ref 0); Return (Ref 1); Return (Str "a"); Return (Ref 2);
     Return (Str "aa + b")].
Proof. reflexivity. Qed.

(** C6 (the code departs from the claim): [combine] changes its operands.
    Without the call, [stringify()] on [element('div')] returns ['div'];
    after [combine] has read it, the same call returns ['divdiv']. *)
Theorem combine_changes_operand :
  snd (run [builder_add Element "div"; builder_add Element "p"; obj_stringify 0] [])
  = [Return (Ref 0); Return (Ref 1); Return (Str "div")] /\
  snd (run [builder_add Element "div"; builder_add Element "p";
            builder_combine 0 "+" 1; obj_stringify 0] [])
  = [Return (Ref 0); Return (Ref 1); Return (Ref 2); Return (Str "divdiv")].
Proof. split; reflexivity. Qed.

(** ** [getJSON] and [fromJSON]: examples *)

Example JSON_stringify_rectangle :
  JSON.stringify (JObject [("width", JNumber 10); ("height", JNumber 20)])
  = "{" +:+ dq +:+ "width" +:+ dq +:+ ":10," +:+ dq +:+ "height" +:+ dq +:+ ":20}".
Proof. reflexivity. Qed.

Example JSON_stringify_array :
  JSON.stringify (JArray [JNumber 1; JNumber 2; JNumber 3]) = "[1,2,3]".
Proof. reflexivity. Qed.

Example JSON_parse_stringify_example :
  let v := JObject [("radius", JNumber 10); ("tags", JArray [JString "a\b"; JNull]);
                    ("nested", JObject [("ok", JBool true); ("n", JNumber (-42))])] in
  JSON.parse (JSON.stringify v) = Return v.
Proof. vm_compute. reflexivity. Qed.

(** The example of the documentation comment:
    [fromJSON(Circle.prototype, '{"radius":10}')]. *)
Example fromJSON_doc_example :
  fromJSON JSON.parse [Circle_prototype_method; Object_prototype]
    ("{" +:+ dq +:+ "radius" +:+ dq +:+ ":10}")
  = Return {| own := [("radius", JNumber 10)];
              proto := [Circle_prototype_method; Object_prototype] |}.
Proof. reflexivity. Qed.

(** ** C9: [fromJSON] after [getJSON] *)

(** C9 (as stated, refuted).  The value [{radius: 1, area: 3}] is
    represented by the format, and [fromJSON] with the prototype of a class
    that has a getter [area] throws a [TypeError] on its text;
    the value with the one own property [__proto__] is represented too, and
    [fromJSON] with [Object.prototype] yields an object with no own
    property: [Object.assign] assigns, and an assignment goes to an
    inherited accessor or fails on a read-only inherited property. *)
Lemma fromJSON_getJSON_counterexample :
  (JSON.parse (JSON.stringify (JObject [("radius", JNumber 1); ("area", JNumber 3)]))
   = Return (JObject [("radius", JNumber 1); ("area", JNumber 3)]) /\
   fromJSON JSON.parse [Circle_prototype; Object_prototype]
     (getJSON JSON.stringify (JObject [("radius", JNumber 1); ("area", JNumber 3)]))
   = Throw (TypeError "Cannot set property which has only a getter")) /\
  (JSON.parse (JSON.stringify (JObject [("__proto__", JNumber 1)]))
   = Return (JObject [("__proto__", JNumber 1)]) /\
   fromJSON JSON.parse [Object_prototype]
     (getJSON JSON.stringify (JObject [("__proto__", JNumber 1)]))
   = Return {| own := []; proto := [Object_prototype] |}).
Proof. repeat split; vm_compute; reflexivity. Qed.

Lemma assoc_None {A} (k : string) (l : list (string * A)) :
  k ∉ map fst l -> assoc k l = None.
Proof.
  induction l as [|[k' a] l IH]; intros Hk; [reflexivity|].
  cbn [assoc]. cbn [map fst] in Hk. apply not_elem_of_cons in Hk as [Hne Hk].
  apply String.eqb_neq in Hne. rewrite Hne. now apply IH.
Qed.

Lemma define_fresh (k : string) (x : json) (props : list (string * json)) :
  k ∉ map fst props -> define k x props = props ++ [(k, x)].
Proof.
  induction props as [|[k' y] props IH]; intros Hk; [reflexivity|].
  cbn [define]. cbn [map fst] in Hk. apply not_elem_of_cons in Hk as [Hne Hk].
  apply String.eqb_neq in Hne. rewrite Hne. cbn. now rewrite IH.
Qed.

Lemma set_fresh (k : string) (x : json) (props : list (string * json)) (p : prototype) :
  k ∉ map fst props -> assignable p k = true ->
  Object.set k x {| own := props; proto := p |}
  = ({| own := props ++ [(k, x)]; proto := p |}, Return tt).
Proof.
  intros Hk Hp. unfold Object.set. cbn [own proto].
  rewrite (assoc_None k props Hk), (define_fresh k x props Hk).
  unfold assignable in Hp.
  destruct (inherited k p) as [[[]|]|]; (reflexivity || discriminate).
Qed.

Lemma assign_properties_fresh (props : list (string * json)) (p : prototype) :
  forall props0,
    NoDup (map fst (props0 ++ props)) ->
    forallb (assignable p) (map fst props) = true ->
    Object.assign_properties props {| own := props0; proto := p |}
    = ({| own := props0 ++ props; proto := p |}, Return tt).
Proof.
  induction props as [|[k x] props IH]; intros props0 Hnodup Hp.
  - cbn. now rewrite app_nil_r.
  - cbn [map fst forallb] in Hp. apply andb_true_iff in Hp as [Hk Hp].
    cbn [Object.assign_properties]. unfold bind.
    rewrite set_fresh; [| |exact Hk].
    + rewrite IH; [now rewrite <- app_assoc | now rewrite <- app_assoc | exact Hp].
    + rewrite map_app in Hnodup. apply NoDup_app in Hnodup as (_ & Hdisj & _).
      intros Hin. apply (Hdisj k Hin). cbn. left.
Qed.

(** What [fromJSON] yields on a text that parses to [v]. *)
Lemma fromJSON_parsed (JSON_parse : string -> completion json) (text : string)
    (v : json) (p : prototype) :
  JSON_parse text = Return v ->
  NoDup (map fst (Object.own_enumerable v)) ->
  forallb (assignable p) (map fst (Object.own_enumerable v)) = true ->
  fromJSON JSON_parse p text = Return {| own := Object.own_enumerable v; proto := p |}.
Proof.
  intros Hparse Hnodup Hp. unfold fromJSON. rewrite Hparse.
  unfold Object.assign, Object.create.
  now rewrite (assign_properties_fresh _ p [] Hnodup Hp).
Qed.

(** C9 (amended): for every plain value [v] that the format represents (the
    text of [v] parses back to [v]; the keys of [v] are distinct, as those
    of an object are) and every prototype chain [p] along
    which each key of [v] resolves to nothing or to a writable data
    property, [fromJSON(p, getJSON(v))] yields an object with prototype [p]
    whose own enumerable properties are those of [v], same keys and same
    values. *)
Theorem fromJSON_getJSON (JSON_stringify : json -> string)
    (JSON_parse : string -> completion json) (v : json) (p : prototype) :
  JSON_parse (JSON_stringify v) = Return v ->
  NoDup (map fst (Object.own_enumerable v)) ->
  forallb (assignable p) (map fst (Object.own_enumerable v)) = true ->
  fromJSON JSON_parse p (getJSON JSON_stringify v)
  = Return {| own := Object.own_enumerable v; proto := p |}.
Proof. intros Hcodec. now apply fromJSON_parsed. Qed.

(** A circle with nested data, and the prototype of the class with the
    getter [area]. *)
Lemma fromJSON_getJSON_witness :
  fromJSON JSON.parse [Circle_prototype; Object_prototype]
    (getJSON JSON.stringify
       (JObject [("radius", JNumber 10); ("tags", JArray [JString "a"; JNull])]))
  = Return {| own := [("radius", JNumber 10); ("tags", JArray [JString "a"; JNull])];
              proto := [Circle_prototype; Object_prototype] |}.
Proof.
  apply (fromJSON_getJSON JSON.stringify JSON.parse
    (JObject [("radius", JNumber 10); ("tags", JArray [JString "a"; JNull])])
    [Circle_prototype; Object_prototype]).
  - vm_compute. reflexivity.
  - apply (bool_decide_unpack _). vm_compute. exact I.
  - reflexivity.
Defined.

(** ** The codec reads back what it writes *)
Lemma digit_pretty_N_char (d : N) : (d < 10)%N -> JSON.digit (pretty_N_char d) = Some d.
Proof.
  intros Hd.
  assert (d = 0 \/ d = 1 \/ d = 2 \/ d = 3 \/ d = 4 \/ d = 5 \/ d = 6 \/ d = 7 \/ d = 8
          \/ d = 9)%N as Hcases by lia.
  repeat (destruct Hcases as [->|Hcases]; [reflexivity|]). now subst.
Qed.

(** Reading the digits of [x] multiplies what was read before by a power
    of ten and adds [x]. *)
Lemma parse_digits_pretty_N_go (x : N) :
  exists m, forall acc s,
    JSON.parse_digits acc (pretty_N_go x s) = JSON.parse_digits (acc * m + x)%N s.
Proof.
  induction (N.lt_wf_0 x) as [x _ IH].
  destruct (N.eq_dec x 0%N) as [->|Hx].
  - exists 1%N. intros acc s. rewrite pretty_N_go_0. f_equal. lia.
  - destruct (IH (x `div` 10)%N) as [m Hm]; [apply N.div_lt; lia|].
    exists (10 * m)%N. intros acc s.
    rewrite pretty_N_go_step by lia. rewrite Hm.
    cbn [JSON.parse_digits]. rewrite digit_pretty_N_char by (apply N.mod_lt; lia).
    f_equal. pose proof (N.div_mod x 10 ltac:(lia)) as Hdm.
    generalize dependent (x `mod` 10)%N. generalize dependent (x `div` 10)%N.
    intros; lia.
Qed.

(** The text of a positive number starts with a digit other than zero. *)
Lemma pretty_N_go_head (x : N) :
  (0 < x)%N -> forall s, exists d r,
    (0 < d < 10)%N /\ pretty_N_go x s = String (pretty_N_char d) r.
Proof.
  induction (N.lt_wf_0 x) as [x _ IH]. intros Hx s.
  rewrite pretty_N_go_step by exact Hx.
  destruct (N.eq_dec (x `div` 10)%N 0%N) as [Hdiv|Hdiv].
  - rewrite Hdiv, pretty_N_go_0. exists (x `mod` 10)%N, s. split; [|reflexivity].
    pose proof (N.div_mod x 10 ltac:(lia)) as Hdm.
    pose proof (N.mod_lt x 10 ltac:(lia)) as Hlt.
    rewrite Hdiv in Hdm. generalize dependent (x `mod` 10)%N. intros; lia.
  - apply IH.
    + apply N.div_lt; lia.
    + now apply N.neq_0_lt_0.
Qed.

Lemma parse_digits_stop (acc : N) (s : string) :
  no_digit_head s = true -> JSON.parse_digits acc s = (acc, s).
Proof.
  destruct s as [|c s]; [reflexivity|]. cbn. now destruct (JSON.digit c).
Qed.

Lemma pretty_N_go_append (x : N) :
  forall s rest, pretty_N_go x s +:+ rest = pretty_N_go x (s +:+ rest).
Proof.
  induction (N.lt_wf_0 x) as [x _ IH]. intros s rest.
  destruct (N.eq_dec x 0%N) as [->|Hx]; [now rewrite !pretty_N_go_0|].
  rewrite (pretty_N_go_step x s), (pretty_N_go_step x (s +:+ rest)) by lia.
  rewrite IH by (apply N.div_lt; lia). reflexivity.
Qed.

Lemma parse_natural_pretty (x : N) (rest : string) :
  no_digit_head rest = true ->
  JSON.parse_natural (pretty x +:+ rest) = Some (x, rest).
Proof.
  intros Hrest. unfold pretty, pretty_N.
  destruct (decide (x = 0%N)) as [->|Hx]; [reflexivity|].
  rewrite pretty_N_go_append. change ("" +:+ rest) with rest.
  destruct (pretty_N_go_head x ltac:(lia) rest) as (d & r & Hd & Hhead).
  destruct (parse_digits_pretty_N_go x) as [m Hm].
  specialize (Hm 0%N rest). rewrite Hhead in *.
  unfold JSON.parse_natural. cbn [JSON.parse_digits] in Hm.
  rewrite digit_pretty_N_char in * by lia.
  destruct d as [|p]; [lia|].
  change (10 * 0 + N.pos p)%N with (N.pos p) in Hm. rewrite Hm.
  rewrite parse_digits_stop by exact Hrest. reflexivity.
Qed.

Lemma pretty_head_digit (x : N) (rest : string) :
  exists c r, pretty x +:+ rest = String c r /\ JSON.digit c <> None.
Proof.
  unfold pretty, pretty_N.
  destruct (decide (x = 0%N)) as [->|Hx]; [now exists "0"%char, rest|].
  rewrite pretty_N_go_append. change ("" +:+ rest) with rest.
  destruct (pretty_N_go_head x ltac:(lia) rest) as (d & r & Hd & Hhead).
  exists (pretty_N_char d), r. split; [exact Hhead|].
  now rewrite digit_pretty_N_char by lia.
Qed.

Lemma parse_chars_escape_char (c : ascii) (text : string) :
  plain_char c = true ->
  JSON.parse_chars (JSON.escape_char c +:+ text)
  = match JSON.parse_chars text with
    | Some (str, rest) => Some (String c str, rest)
    | None => None
    end.
Proof.
  destruct c as [[] [] [] [] [] [] [] []]; intros Hc; try discriminate Hc; reflexivity.
Qed.

Lemma parse_chars_escape (s rest : string) :
  plain_string s = true ->
  JSON.parse_chars (JSON.escape s +:+ dq +:+ rest) = Some (s, rest).
Proof.
  induction s as [|c s IH]; intros Hs; [reflexivity|].
  cbn [plain_string] in Hs. apply andb_true_iff in Hs as [Hc Hs].
  cbn [JSON.escape]. rewrite append_assoc.
  rewrite parse_chars_escape_char by exact Hc. now rewrite IH.
Qed.

Lemma parse_chars_quote (s rest : string) :
  plain_string s = true ->
  exists text, JSON.quote s +:+ rest = String "034" text /\
               JSON.parse_chars text = Some (s, rest).
Proof.
  intros Hs. exists (JSON.escape s +:+ dq +:+ rest). split.
  - unfold JSON.quote. rewrite !append_assoc. reflexivity.
  - now apply parse_chars_escape.
Qed.

Lemma json_nested_ind (P : json -> Prop) :
  P JNull -> (forall b, P (JBool b)) -> (forall n, P (JNumber n)) ->
  (forall s, P (JString s)) ->
  (forall xs, Forall P xs -> P (JArray xs)) ->
  (forall fields, Forall (fun kv => P (snd kv)) fields -> P (JObject fields)) ->
  forall v, P v.
Proof.
  intros Hnull Hbool Hnum Hstr Harr Hobj. fix IH 1.
  intros [|b|n|s|xs|fields].
  - exact Hnull.
  - apply Hbool.
  - apply Hnum.
  - apply Hstr.
  - apply Harr. induction xs as [|x xs IHxs]; constructor; [apply IH | exact IHxs].
  - apply Hobj. induction fields as [|[k x] fields IHfs]; constructor;
      [apply IH | exact IHfs].
Qed.

Lemma concat_cons2 (sep a b : string) (l : list string) :
  String.concat sep (a :: b :: l) = a +:+ sep +:+ String.concat sep (b :: l).
Proof. reflexivity. Qed.

Lemma stringify_array_cons (x : json) (xs : list json) (rest : string) :
  JSON.stringify (JArray (x :: xs)) +:+ rest
  = "[" +:+ JSON.stringify x +:+ elements_text xs rest.
Proof.
  cbn [JSON.stringify]. rewrite !append_assoc. f_equal.
  revert x. induction xs as [|y xs IH]; intros x.
  - reflexivity.
  - cbn [map] in *. rewrite concat_cons2, !append_assoc, IH. reflexivity.
Qed.

Lemma stringify_object_cons (kv : string * json) (fields : list (string * json))
    (rest : string) :
  JSON.stringify (JObject (kv :: fields)) +:+ rest
  = "{" +:+ member_text kv +:+ members_text fields rest.
Proof.
  cbn [JSON.stringify]. rewrite !append_assoc. f_equal.
  fold (member_text kv). change (fun kv0 : string * json =>
    JSON.quote (fst kv0) +:+ ":" +:+ JSON.stringify (snd kv0)) with member_text.
  revert kv. induction fields as [|kv' fields IH]; intros kv.
  - reflexivity.
  - cbn [map] in *. rewrite concat_cons2, !append_assoc, IH. reflexivity.
Qed.

Lemma substring_all (s : string) : String.substring 0 (String.length s) s = s.
Proof. induction s as [|c s IH]; [reflexivity|]. cbn. now rewrite IH. Qed.

Lemma starts_with_append (p rest : string) :
  JSON.starts_with p (p +:+ rest) = Some rest.
Proof.
  unfold JSON.starts_with.
  assert (String.prefix p (p +:+ rest) = true) as ->.
  { induction p as [|c p IH]; [now destruct rest|].
    change (String c p +:+ rest) with (String c (p +:+ rest)). cbn.
    destruct (ascii_dec c c); [exact IH | congruence]. }
  f_equal. induction p as [|c p IH].
  - change ("" +:+ rest) with rest. cbn [String.length].
    rewrite Nat.sub_0_r. apply substring_all.
  - change (String c p +:+ rest) with (String c (p +:+ rest)). cbn. exact IH.
Qed.

Lemma digit_starts_value (c : ascii) : JSON.digit c <> None -> starts_value c = true.
Proof.
  destruct c as [[] [] [] [] [] [] [] []]; intros Hc; try reflexivity;
    now (exfalso; apply Hc).
Qed.

Lemma pretty_Z_head (n : Z) (rest : string) :
  exists c r, pretty n +:+ rest = String c r /\ starts_value c = true.
Proof.
  destruct n as [|p|p].
  - now exists "0"%char, rest.
  - destruct (pretty_head_digit (N.pos p) rest) as (c & r & Heq & Hc).
    exists c, r. split; [exact Heq | now apply digit_starts_value].
  - exists "-"%char, (pretty (N.pos p) +:+ rest). split; [|reflexivity].
    unfold pretty at 1, pretty_Z. now rewrite append_assoc.
Qed.

Lemma stringify_head (v : json) (rest : string) :
  exists c r, JSON.stringify v +:+ rest = String c r /\ starts_value c = true.
Proof.
  destruct v as [|[]|n|s|xs|fields]; cbn [JSON.stringify].
  - now eexists _, _.
  - now eexists _, _.
  - now eexists _, _.
  - apply pretty_Z_head.
  - unfold JSON.quote. rewrite !append_assoc. now eexists _, _.
  - rewrite !append_assoc. now eexists _, _.
  - rewrite !append_assoc. now eexists _, _.
Qed.

Lemma pretty_pos_head (p : positive) (rest : string) :
  exists d r, (0 < d < 10)%N /\ pretty (N.pos p) +:+ rest = String (pretty_N_char d) r.
Proof.
  unfold pretty, pretty_N. rewrite decide_False by discriminate.
  rewrite pretty_N_go_append. change ("" +:+ rest) with rest.
  now apply pretty_N_go_head.
Qed.

Lemma parse_value_number (n : Z) (fuel : nat) (rest : string) :
  no_digit_head rest = true ->
  JSON.parse_value (S fuel) (pretty n +:+ rest) = Some (JNumber n, rest).
Proof.
  intros Hrest. destruct n as [|p|p].
  - reflexivity.
  - change (pretty (Z.pos p)) with (pretty (N.pos p)).
    pose proof (parse_natural_pretty (N.pos p) rest Hrest) as Hnat.
    destruct (pretty_pos_head p rest) as (d & r & Hd & Heq).
    rewrite Heq in *.
    assert (d = 1 \/ d = 2 \/ d = 3 \/ d = 4 \/ d = 5 \/ d = 6 \/ d = 7 \/ d = 8
            \/ d = 9)%N as Hcases by lia.
    repeat (destruct Hcases as [->|Hcases];
            [cbn in *; rewrite Hnat; reflexivity|]).
    subst d. cbn in *. rewrite Hnat. reflexivity.
  - change (pretty (Z.neg p)) with ("-" +:+ pretty (N.pos p)).
    rewrite append_assoc. change ("-" +:+ ?s) with (String "-" s).
    cbn. rewrite parse_natural_pretty by exact Hrest. reflexivity.
Qed.

Lemma no_digit_head_elements_text (xs : list json) (rest : string) :
  no_digit_head (elements_text xs rest) = true.
Proof. now destruct xs. Qed.

Lemma no_digit_head_members_text (fields : list (string * json)) (rest : string) :
  no_digit_head (members_text fields rest) = true.
Proof. now destruct fields. Qed.

Lemma parse_elements_text (xs : list json) :
  Forall parses xs ->
  forall fuel rest,
    S (length xs + list_sum (map cost xs)) <= fuel ->
    JSON.parse_elements fuel (elements_text xs rest) = Some (xs, rest).
Proof.
  induction 1 as [|x xs Hx _ IH]; intros [|fuel] rest Hfuel; try (cbn in Hfuel; lia).
  - reflexivity.
  - cbn [elements_text]. change ("," +:+ ?s) with (String "," s).
    simpl in Hfuel.
    cbn. rewrite Hx; [|lia|apply no_digit_head_elements_text].
    rewrite IH by lia. reflexivity.
Qed.

Lemma parse_member_text (kv : string * json) (fuel : nat) (tail : string) :
  plain_string (fst kv) = true -> parses (snd kv) ->
  S (cost (snd kv)) <= fuel -> no_digit_head tail = true ->
  JSON.parse_member fuel (member_text kv +:+ tail) = Some (kv, tail).
Proof.
  intros Hk Hx Hfuel Htail. destruct fuel as [|fuel]; [lia|].
  destruct kv as [k x]. unfold member_text, JSON.quote. cbn [fst snd] in *.
  rewrite !append_assoc. change (dq +:+ ?s) with (String "034" s) at 1.
  cbn. rewrite parse_chars_escape by exact Hk.
  change (":" +:+ ?s) with (String ":" s).
  cbn. rewrite Hx; [reflexivity | lia | exact Htail].
Qed.

Lemma parse_members_text (fields : list (string * json)) :
  Forall (fun kv => plain_string (fst kv) = true /\ parses (snd kv)) fields ->
  forall fuel rest,
    S (2 * length fields + list_sum (map (fun kv => cost (snd kv)) fields)) <= fuel ->
    JSON.parse_members fuel (members_text fields rest) = Some (fields, rest).
Proof.
  induction 1 as [|kv fields [Hk Hx] _ IH]; intros [|fuel] rest Hfuel;
    try (cbn in Hfuel; lia).
  - reflexivity.
  - cbn [members_text]. change ("," +:+ ?s) with (String "," s).
    simpl in Hfuel.
    cbn. rewrite parse_member_text;
      [|exact Hk|exact Hx|lia|apply no_digit_head_members_text].
    rewrite IH by lia. reflexivity.
Qed.

Lemma parse_value_stringify (v : json) : plain v = true -> parses v.
Proof.
  induction v as [|b|n|s|xs IH|fields IH] using json_nested_ind; intros Hplain fuel rest Hfuel Hrest;
    (destruct fuel as [|fuel]; [cbn in Hfuel; lia|]).
  - change (JSON.stringify JNull +:+ rest) with (String "n" ("ull" +:+ rest)).
    cbn. now rewrite starts_with_append.
  - destruct b.
    + change (JSON.stringify (JBool true) +:+ rest) with (String "t" ("rue" +:+ rest)).
      cbn. now rewrite starts_with_append.
    + change (JSON.stringify (JBool false) +:+ rest) with (String "f" ("alse" +:+ rest)).
      cbn. now rewrite starts_with_append.
  - now apply parse_value_number.
  - cbn [JSON.stringify plain] in *.
    destruct (parse_chars_quote s rest Hplain) as (text & -> & Htext).
    cbn. now rewrite Htext.
  - destruct xs as [|x xs]; [reflexivity|].
    rewrite stringify_array_cons. change ("[" +:+ ?s) with (String "[" s).
    cbn [plain forallb] in Hplain. apply andb_true_iff in Hplain as [Hx Hxs].
    apply Forall_cons in IH as [IHx IHxs].
    simpl in Hfuel.
    destruct (stringify_head x (elements_text xs rest)) as (c & r & Heq & Hc).
    apply andb_true_iff in Hc as [Hws Hclose].
    apply negb_true_iff in Hws, Hclose.
    cbn. rewrite Heq. cbn [JSON.skip_ws]. rewrite Hws, Hclose, <- Heq.
    rewrite (IHx Hx); [|lia|apply no_digit_head_elements_text].
    rewrite parse_elements_text; [reflexivity| |lia].
    apply Forall_forall. intros y Hy.
    rewrite Forall_forall in IHxs. apply (IHxs y Hy).
    rewrite forallb_forall in Hxs. apply Hxs. now apply list_elem_of_In.
  - destruct fields as [|[k x] fields]; [reflexivity|].
    rewrite stringify_object_cons. change ("{" +:+ ?s) with (String "{" s).
    cbn [plain forallb fst snd] in Hplain.
    apply andb_true_iff in Hplain as [Hkx Hfields].
    apply andb_true_iff in Hkx as [Hk Hx].
    apply Forall_cons in IH as [IHx IHfields]. cbn [snd] in IHx.
    simpl in Hfuel.
    assert (exists r, member_text (k, x) +:+ members_text fields rest = String "034" r)
      as [r Heq].
    { unfold member_text, JSON.quote. rewrite !append_assoc. now eexists. }
    cbn. rewrite Heq. cbn. rewrite <- Heq.
    rewrite parse_member_text;
      [|exact Hk|now apply IHx|cbn [snd]; lia|apply no_digit_head_members_text].
    rewrite parse_members_text; [reflexivity| |lia].
    apply Forall_forall. intros [k' y] Hy. cbn [fst snd].
    rewrite Forall_forall in IHfields. rewrite forallb_forall in Hfields.
    specialize (Hfields (k', y) ltac:(now apply list_elem_of_In)).
    cbn [fst snd] in Hfields. apply andb_true_iff in Hfields as [Hk' Hy'].
    split; [exact Hk'|]. now apply (IHfields (k', y) Hy).
Qed.

Lemma length_quote (k : string) : 2 <= String.length (JSON.quote k).
Proof. unfold JSON.quote. rewrite !length_append. cbn. lia. Qed.

Lemma length_elements_text (xs : list json) (rest : string) :
  Forall (fun x => cost x <= String.length (JSON.stringify x)) xs ->
  S (length xs + list_sum (map cost xs)) <= String.length (elements_text xs rest).
Proof.
  induction 1 as [|x xs Hx _ IH]; cbn [elements_text].
  - rewrite length_append. cbn. lia.
  - rewrite !length_append. simpl. lia.
Qed.

Lemma length_members_text (fields : list (string * json)) (rest : string) :
  Forall (fun kv => cost (snd kv) <= String.length (JSON.stringify (snd kv))) fields ->
  S (2 * length fields + list_sum (map (fun kv => cost (snd kv)) fields))
  <= String.length (members_text fields rest).
Proof.
  induction 1 as [|kv fields Hx _ IH]; cbn [members_text].
  - rewrite length_append. cbn. lia.
  - unfold member_text. rewrite !length_append.
    pose proof (length_quote (fst kv)). simpl. lia.
Qed.

Lemma cost_le_length (v : json) : cost v <= String.length (JSON.stringify v).
Proof.
  induction v as [|b|n|s|xs IH|fields IH] using json_nested_ind.
  - cbn. lia.
  - destruct b; cbn; lia.
  - destruct (pretty_Z_head n "") as (c & r & Heq & _).
    rewrite append_nil_r in Heq. cbn [JSON.stringify cost]. rewrite Heq. cbn. lia.
  - cbn [JSON.stringify cost]. pose proof (length_quote s). lia.
  - destruct xs as [|x xs]; [vm_compute; lia|].
    rewrite <- (append_nil_r (JSON.stringify _)), stringify_array_cons.
    apply Forall_cons in IH as [IHx IHxs].
    pose proof (length_elements_text xs "" IHxs).
    rewrite !length_append. simpl. lia.
  - destruct fields as [|[k x] fields]; [vm_compute; lia|].
    rewrite <- (append_nil_r (JSON.stringify _)), stringify_object_cons.
    apply Forall_cons in IH as [IHx IHfields]. cbn [snd] in IHx.
    pose proof (length_members_text fields "" IHfields).
    pose proof (length_quote k).
    unfold member_text. cbn [fst snd]. rewrite !length_append. simpl. lia.
Qed.

(** The codec reads back every value of the fragment from its text. *)
Theorem JSON_parse_stringify (v : json) :
  plain v = true -> JSON.parse (JSON.stringify v) = Return v.
Proof.
  intros Hplain. unfold JSON.parse.
  pose proof (parse_value_stringify v Hplain (S (String.length (JSON.stringify v))) ""
    ltac:(pose proof (cost_le_length v); lia) eq_refl) as Hparse.
  rewrite append_nil_r in Hparse. now rewrite Hparse.
Qed.


(** On the codec of this file, the values the format represents include
    every value of the fragment. *)
Corollary fromJSON_getJSON_codec (v : json) (p : prototype) :
  plain v = true ->
  NoDup (map fst (Object.own_enumerable v)) ->
  forallb (assignable p) (map fst (Object.own_enumerable v)) = true ->
  fromJSON JSON.parse p (getJSON JSON.stringify v)
  = Return {| own := Object.own_enumerable v; proto := p |}.
Proof.
  intros Hplain. apply fromJSON_parsed. now apply JSON_parse_stringify.
Qed.


(** ** C10: [Rectangle] *)

Lemma Rectangle_assignments_spec {number : Type} (r : Rectangle.ref)
    (ws : list (Rectangle.assignment number)) :
  forall (h : Rectangle.heap number) (o : Rectangle.t number),
    h !! r = Some o ->
    Rectangle.assignments r ws h
    = (<[r := Rectangle.mk
               (fst (Rectangle.current ws (Rectangle.width o, Rectangle.height o)))
               (snd (Rectangle.current ws (Rectangle.width o, Rectangle.height o)))
               (Rectangle.getArea o)]> h, Return tt).
Proof.
  unfold Rectangle.heap, Rectangle.ref in *.
  induction ws as [|[w|w] ws IH]; intros h o Hr.
  - cbn [Rectangle.assignments Rectangle.current fst snd]. unfold ret.
    rewrite list_insert_id; [reflexivity|]. now destruct o.
  - cbn [Rectangle.assignments Rectangle.current].
    unfold bind, Rectangle.set_width, Rectangle.heap, Rectangle.ref in *.
    rewrite Hr. cbn [ret].
    rewrite (IH _ (Rectangle.mk w (Rectangle.height o) (Rectangle.getArea o))).
    + cbn [Rectangle.width Rectangle.height Rectangle.getArea fst snd].
      now rewrite list_insert_insert_eq.
    + apply list_lookup_insert_eq. eapply lookup_lt_Some; eassumption.
  - cbn [Rectangle.assignments Rectangle.current].
    unfold bind, Rectangle.set_height, Rectangle.heap, Rectangle.ref in *.
    rewrite Hr. cbn [ret].
    rewrite (IH _ (Rectangle.mk (Rectangle.width o) w (Rectangle.getArea o))).
    + cbn [Rectangle.width Rectangle.height Rectangle.getArea fst snd].
      now rewrite list_insert_insert_eq.
    + apply list_lookup_insert_eq. eapply lookup_lt_Some; eassumption.
Qed.

(** C10: [new Rectangle(w, h)] yields an object whose [width] is [w] and
    whose [height] is [h], and whose [getArea()] returns their product; after
    any assignments to the two fields, [getArea()] returns the product of the
    values the fields hold when it is called. *)
Theorem Rectangle_getArea (number : Type) (mul : number -> number -> number)
    (h : Rectangle.heap number) (w0 h0 : number) (ws : list (Rectangle.assignment number)) :
  snd (Rectangle.Rectangle w0 h0 h) = Return (length h) /\
  snd (Rectangle.get_width (length h) (fst (Rectangle.Rectangle w0 h0 h))) = Return w0 /\
  snd (Rectangle.get_height (length h) (fst (Rectangle.Rectangle w0 h0 h))) = Return h0 /\
  snd (Rectangle.call_getArea mul (length h) (fst (Rectangle.Rectangle w0 h0 h)))
  = Return (mul w0 h0) /\
  snd (Rectangle.assignments (length h) ws (fst (Rectangle.Rectangle w0 h0 h)))
  = Return tt /\
  snd (Rectangle.get_width (length h)
         (fst (Rectangle.assignments (length h) ws (fst (Rectangle.Rectangle w0 h0 h)))))
  = Return (fst (Rectangle.current ws (w0, h0))) /\
  snd (Rectangle.get_height (length h)
         (fst (Rectangle.assignments (length h) ws (fst (Rectangle.Rectangle w0 h0 h)))))
  = Return (snd (Rectangle.current ws (w0, h0))) /\
  snd (Rectangle.call_getArea mul (length h)
         (fst (Rectangle.assignments (length h) ws (fst (Rectangle.Rectangle w0 h0 h)))))
  = Return (mul (fst (Rectangle.current ws (w0, h0)))
                (snd (Rectangle.current ws (w0, h0)))).
Proof.
  set (o := Rectangle.mk w0 h0 (Rectangle.arrow (length h))).
  assert ((h ++ [o]) !! length h = Some o) as Hnew.
  { rewrite lookup_app_r by lia. now rewrite Nat.sub_diag. }
  assert (length h < length (h ++ [o])) as Hlt by (rewrite length_app; cbn; lia).
  unfold Rectangle.Rectangle. cbn [fst snd]. fold o.
  rewrite (Rectangle_assignments_spec _ ws _ o Hnew). cbn [fst snd].
  unfold Rectangle.call_getArea, Rectangle.get_width, Rectangle.get_height, bind, ret.
  unfold Rectangle.heap, Rectangle.ref in *.
  rewrite !Hnew, !list_lookup_insert_eq by exact Hlt.
  cbn. rewrite !Hnew, !list_lookup_insert_eq by exact Hlt.
  repeat split.
Qed.

(** [new Rectangle(10, 20)], as the documentation comment has it, and an
    assignment to [width]. *)
Example Rectangle_doc_example :
  snd ((r <- Rectangle.Rectangle 10%Z 20%Z ;;; Rectangle.call_getArea Z.mul r) [])
  = Return 200%Z /\
  snd ((r <- Rectangle.Rectangle 10%Z 20%Z ;;;
        Rectangle.set_width r 3%Z ;;;
        Rectangle.call_getArea Z.mul r) [])
  = Return 60%Z.
Proof. split; reflexivity. Qed.


(** * Part IV: further properties of the code *)

(** ** [stringify], [checkForOrder] and the additions *)

(** X1: [stringify()] never throws; it returns what [selectorString] held
    followed by the rendering of the fragments (in the canonical order, each
    part with its prefix, separator and suffix), stores that string in
    [selectorString], and leaves the fragments and the flags as they are. *)
Theorem stringify_renders (this : t) :
  stringify this
  = ({| params := params this;
        selectorString :=
          selectorString this +:+ render (fun p => fragments p (params this));
        correctOrder := correctOrder this |},
     Return (selectorString this +:+ render (fun p => fragments p (params this)))).
Proof. exact (stringify_spec this). Qed.

Lemma stringify_n_state (n : nat) :
  forall this : t,
    stringify_n n this
    = set_selectorString
        (selectorString this +:+ copies n (render (fun p => fragments p (params this))))
        this.
Proof.
  induction n as [|n IH]; intros this.
  - cbn [stringify_n copies]. rewrite append_nil_r. now destruct this.
  - cbn [stringify_n copies]. rewrite IH, stringify_spec.
    cbn [fst params selectorString set_selectorString correctOrder].
    now rewrite append_assoc.
Qed.

(** X2: the call number [n + 1] of [stringify()] on a builder returns what
    [selectorString] held at first followed by [n + 1] copies of the
    rendering of the fragments. *)
Theorem stringify_repeated (n : nat) (this : t) :
  snd (stringify (stringify_n n this))
  = Return (selectorString this +:+
            copies (S n) (render (fun p => fragments p (params this)))).
Proof.
  rewrite stringify_n_state, stringify_spec.
  cbn [snd params selectorString set_selectorString]. f_equal.
  rewrite append_assoc. f_equal.
  set (r := render _). clearbody r.
  induction n as [|n IH]; cbn [copies] in *.
  - now rewrite append_nil_r.
  - now rewrite append_assoc, IH.
Qed.

(** X3: [checkForOrder] sets the flag of its part before it looks at the
    later parts, so the flag is set also when it throws; it throws the order
    error exactly when a later part has its flag set, and changes nothing
    but that one flag. *)
Theorem checkForOrder_sets_flag_first (p : part) (this : t) :
  snd (checkForOrder (key p) this)
  = (if later_touched p this then Throw SelectorOrderError else Return tt) /\
  params (fst (checkForOrder (key p) this)) = params this /\
  selectorString (fst (checkForOrder (key p) this)) = selectorString this /\
  forall q, touched q (fst (checkForOrder (key p) this))
            = touched q this || bool_decide (q = p).
Proof.
  rewrite checkForOrder_spec. cbn [fst snd].
  repeat split. intros q. apply touched_touch.
Qed.

(** X4: an addition raises the duplicate error exactly when its part is
    [element], [id] or [pseudoElement] and the part holds a fragment
    already: whatever the flags are. *)
Theorem duplicate_error_iff (p : part) (v : string) (this : t) :
  snd (add p v this) = Throw DuplicateSelectorPartError <->
  single p = true /\ fragments p (params this) <> [].
Proof.
  rewrite add_spec.
  destruct p, (fragments _ (params this)) as [|fr frs] eqn:Hfr;
    cbn [occurrence_first single andb negb is_nil];
    try replace (later_touched PseudoElement this) with false by reflexivity;
    try destruct (later_touched _ this);
    cbn [snd]; split; try discriminate; try reflexivity; try (intros [? ?]; congruence);
    try (intros _; split; [reflexivity | discriminate]).
Qed.

(** X5: an addition returns exactly when no later part has its flag set
    and, for [element], [id] and [pseudoElement], the part holds no
    fragment; it then has appended its value to the fragments of its part,
    set the flag of its part, and changed nothing else. *)
Theorem addition_returns_iff (p : part) (v : string) (this : t) :
  (snd (add p v this) = Return tt <->
   later_touched p this = false /\
   (single p = true -> fragments p (params this) = [])) /\
  (snd (add p v this) = Return tt ->
   (forall q, fragments q (params (fst (add p v this)))
              = if bool_decide (q = p) then fragments q (params this) ++ [v]
                else fragments q (params this)) /\
   selectorString (fst (add p v this)) = selectorString this /\
   (forall q, touched q (fst (add p v this)) = touched q this || bool_decide (q = p))).
Proof.
  rewrite add_spec. split.
  - destruct (occurrence_first p) eqn:Hfirst, (single p) eqn:Hsingle,
      (fragments p (params this)) as [|fr frs], (later_touched p this);
      cbn [andb negb is_nil snd]; split; try discriminate; try reflexivity;
      try (intros [Hl Hn]; try discriminate Hl; now specialize (Hn eq_refl));
      try (intros _; split; [reflexivity | intros; congruence]).
    all: destruct p; discriminate.
  - destruct (occurrence_first p && _); [discriminate|].
    destruct (later_touched p this); [discriminate|].
    destruct (single p && _); [discriminate|]. intros _. cbn [fst].
    split; [|split].
    + intros q. now rewrite fragments_push, params_touch.
    + now rewrite selectorString_push, selectorString_touch.
    + intros q. now rewrite touched_push, touched_touch.
Qed.

(** ** The chains a builder accepts *)

Lemma clear_from_push_touch_next (n : nat) (p : part) (v : string) (this : t) :
  clear_from n this -> n <= S (rank p) -> clear_from (S (rank p)) (push p v (touch p this)).
Proof.
  intros Hclear Hn q Hq.
  rewrite touched_push, touched_touch, fragments_push, params_touch.
  assert (q <> p) as Hne by (intros ->; lia).
  rewrite !bool_decide_eq_false_2 by assumption.
  rewrite orb_false_r. apply Hclear. lia.
Qed.

Lemma clear_from_next_later_touched (p : part) (this : t) :
  clear_from (S (rank p)) this -> later_touched p this = false.
Proof.
  intros Hclear.
  destruct this as [ps s [fe fi fc fa fpc fpe]].
  pose proof (fun q H => proj1 (Hclear q H)) as Hflags.
  destruct p;
    repeat match goal with
    | b : bool |- _ =>
        destruct b; try reflexivity;
        try (exfalso;
             first [ specialize (Hflags Id ltac:(cbn; lia)); discriminate Hflags
                   | specialize (Hflags Class ltac:(cbn; lia)); discriminate Hflags
                   | specialize (Hflags Attr ltac:(cbn; lia)); discriminate Hflags
                   | specialize (Hflags PseudoClass ltac:(cbn; lia)); discriminate Hflags
                   | specialize (Hflags PseudoElement ltac:(cbn; lia));
                     discriminate Hflags ])
    end.
Qed.

Lemma push_touch_tip (n : nat) (p : part) (v : string) (this : t) :
  clear_from n this -> n <= S (rank p) -> tip (Some p) (push p v (touch p this)).
Proof.
  intros Hclear Hn. split; [|split].
  - rewrite touched_push, touched_touch, bool_decide_eq_true_2 by reflexivity.
    apply orb_true_r.
  - rewrite fragments_push, bool_decide_eq_true_2 by reflexivity.
    now destruct (fragments p (params (touch p this))).
  - now apply (clear_from_push_touch_next n).
Qed.

Lemma add_throws_held (p : part) (v : string) (this : t) :
  single p = true -> fragments p (params this) <> [] ->
  is_Throw (snd (add p v this)) = true.
Proof.
  intros Hsingle Hheld. rewrite add_spec, Hsingle.
  destruct (fragments p (params this)); [congruence|]. cbn [is_nil negb andb].
  destruct (occurrence_first p); [reflexivity|]. cbn [andb].
  now destruct (later_touched p this).
Qed.

Lemma add_throws_later (p : part) (v : string) (this : t) :
  later_touched p this = true -> is_Throw (snd (add p v this)) = true.
Proof.
  intros Hlater. rewrite add_spec, Hlater. now destruct (occurrence_first p && _).
Qed.

Lemma chain_accepted (adds : list (part * string)) :
  forall (last : option part) (this : t),
    tip last this ->
    (snd (chain adds this) = Return tt <-> accepted last adds = true) /\
    (accepted last adds = true ->
     selectorString (fst (chain adds this)) = selectorString this /\
     forall q, fragments q (params (fst (chain adds this)))
               = fragments q (params this) ++ added q adds).
Proof.
  induction adds as [|[p v] adds IH]; intros last this Htip.
  - cbn. split; [now split|]. intros _. split; [reflexivity|].
    intros q. now rewrite app_nil_r.
  - cbn [chain accepted]. unfold bind.
    assert (forall n, clear_from n this -> n <= S (rank p) ->
                      later_touched p this = false ->
                      single p && negb (is_nil (fragments p (params this))) = false ->
            (snd (chain adds (push p v (touch p this))) = Return tt
             <-> accepted (Some p) adds = true) /\
            (accepted (Some p) adds = true ->
             selectorString (fst (chain adds (push p v (touch p this))))
             = selectorString this /\
             forall q, fragments q (params (fst (chain adds (push p v (touch p this)))))
                       = fragments q (params this) ++ added q ((p, v) :: adds)))
      as Hstep.
    { intros n Hclear Hn Hlater Hsingle.
      destruct (IH (Some p) _ (push_touch_tip n p v this Hclear Hn)) as [Hiff Hstate].
      split; [exact Hiff|]. intros Hacc. destruct (Hstate Hacc) as [Hsel Hfr].
      split; [now rewrite Hsel, selectorString_push, selectorString_touch|].
      intros q. rewrite Hfr, fragments_push, params_touch.
      unfold added. cbn [List.filter fst].
      destruct (decide (q = p)) as [->|Hne].
      - rewrite !bool_decide_eq_true_2 by reflexivity. cbn [map snd].
        now rewrite <- app_assoc.
      - now rewrite !bool_decide_eq_false_2 by congruence. }
    destruct last as [q|].
    + destruct Htip as (Htouched & Hheld & Hclear).
      destruct (Nat.ltb_spec (rank q) (rank p)) as [Hlt|Hge]; cbn [orb].
      * rewrite add_ok;
          [|apply (clear_from_later_touched (S (rank q))); [exact Hclear | lia]
           |destruct (Hclear p ltac:(lia)) as [_ ->]; now rewrite andb_false_r].
        cbn [andb]. apply (Hstep (S (rank q))); [exact Hclear | lia | |].
        -- apply (clear_from_later_touched (S (rank q))); [exact Hclear | lia].
        -- destruct (Hclear p ltac:(lia)) as [_ ->]. now rewrite andb_false_r.
      * destruct (decide (p = q)) as [->|Hne].
        -- rewrite bool_decide_eq_true_2 by reflexivity. cbn [andb].
           destruct (single q) eqn:Hsingle; cbn [negb andb].
           ++ pose proof (add_throws_held q v this Hsingle Hheld) as Hthrow.
              destruct (add q v this) as [o' [[]|e]]; [discriminate Hthrow|].
              split; [split; discriminate | discriminate].
           ++ pose proof (clear_from_next_later_touched q this Hclear) as Hlater.
              rewrite add_ok by (rewrite ?Hsingle; auto).
              apply (Hstep (S (rank q))); [exact Hclear | lia | exact Hlater |].
              first [reflexivity | now rewrite Hsingle].
        -- rewrite bool_decide_eq_false_2 by assumption. cbn [andb].
           assert (rank p < rank q) as Hlt.
           { destruct p, q; cbn in *; try lia; congruence. }
           pose proof (add_throws_later p v this
             (touched_later_touched p q this Htouched Hlt)) as Hthrow.
           destruct (add p v this) as [o' [[]|e]]; [discriminate Hthrow|].
           split; [split; discriminate | discriminate].
    + cbn [tip] in Htip. cbn [andb].
      rewrite add_ok;
        [|apply (clear_from_later_touched 0); [exact Htip | lia]
         |destruct (Htip p ltac:(lia)) as [_ ->]; now rewrite andb_false_r].
      apply (Hstep 0); [exact Htip | lia | |].
      * apply (clear_from_later_touched 0); [exact Htip | lia].
      * destruct (Htip p ltac:(lia)) as [_ ->]. now rewrite andb_false_r.
Qed.

(** X6: a chain of additions on a fresh builder returns exactly when every
    fragment is of a part later than the one before, or of the same part
    when that is [class], [attr] or [pseudoClass]; every other chain throws.
    After an accepted chain, [stringify()] returns the rendering of the
    fragments in the order they were added. *)
Theorem chain_returns_iff_accepted (adds : list (part * string)) :
  (snd (chain adds constructor) = Return tt <-> accepted None adds = true) /\
  (accepted None adds = true ->
   snd (stringify (fst (chain adds constructor))) = Return (render (fun p => added p adds))).
Proof.
  destruct (chain_accepted adds None constructor clear_from_constructor) as [Hiff Hstate].
  split; [exact Hiff|]. intros Hacc. destruct (Hstate Hacc) as [Hsel Hfr].
  rewrite stringify_spec. cbn [snd]. rewrite Hsel. cbn [selectorString constructor].
  f_equal. change ("" +:+ ?s) with s.
  unfold render. f_equal. apply map_ext. intros p. rewrite Hfr. now destruct p.
Qed.

(** [id('main').class('container').class('editable')] is accepted, and
    [class('a').id('b')] is not. *)
Lemma chain_returns_iff_accepted_witness :
  snd (stringify (fst (chain [(Id, "main"); (Class, "container"); (Class, "editable")]
                         constructor)))
  = Return "#main.container.editable" /\
  snd (chain [(Class, "a"); (Id, "b")] constructor) <> Return tt.
Proof.
  split.
  - exact (proj2 (chain_returns_iff_accepted
      [(Id, "main"); (Class, "container"); (Class, "editable")]) eq_refl).
  - intros Hret.
    apply (proj1 (chain_returns_iff_accepted [(Class, "a"); (Id, "b")])) in Hret.
    discriminate Hret.
Defined.

(** ** What the flags tell on a reachable builder *)

Lemma later_present_touch (q p : part) (this : t) :
  later_present q (touch p this) = later_present q this.
Proof. reflexivity. Qed.

Lemma later_present_push (q p : part) (v : string) (this : t) :
  later_present q (push p v this) = later_present q this || Nat.ltb (rank q) (rank p).
Proof.
  destruct this as [[e i c a pc pe] s o].
  destruct p, q; cbn; destruct e, i, c, a, pc, pe; reflexivity.
Qed.

Lemma flags_follow_fragments_add (p : part) (v : string) (o : t) :
  flags_follow_fragments o -> flags_follow_fragments (fst (add p v o)).
Proof.
  intros [Hft Heq]. split; [now apply fragments_touched_add|].
  intros q. rewrite add_spec.
  destruct (occurrence_first p && _); [apply Heq|].
  destruct (later_touched p o) eqn:Hlater.
  - cbn [fst]. rewrite later_touched_touch, later_present_touch, <- Heq.
    destruct (Nat.ltb_spec (rank q) (rank p)) as [Hlt|_]; [|apply orb_false_r].
    rewrite (later_touched_mono q p o) by (lia || assumption). reflexivity.
  - destruct (single p && negb (is_nil (fragments p (params o)))) eqn:Hsingle; cbn [fst].
    + rewrite later_touched_touch, later_present_touch, <- Heq.
      destruct (Nat.ltb_spec (rank q) (rank p)) as [Hlt|_]; [|apply orb_false_r].
      apply andb_true_iff in Hsingle as [_ Hfr].
      assert (touched p o = true) as Htouched.
      { apply Hft. intros Hnil. now rewrite Hnil in Hfr. }
      now rewrite (touched_later_touched q p o Htouched Hlt).
    + rewrite later_touched_push, later_touched_touch, later_present_push,
        later_present_touch. now rewrite Heq.
Qed.

Lemma flags_follow_fragments_reachable (cs : list call) (l : loc) (o : t) :
  fst (run cs []) !! l = Some o -> flags_follow_fragments o.
Proof.
  apply reachable_invariant.
  - split; [intros p Hp; now destruct p | intros p; now destruct p].
  - apply flags_follow_fragments_add.
  - intros o' [Hft Heq]. split.
    + intros p Hp. rewrite params_stringify in Hp.
      unfold touched. rewrite correctOrder_stringify. now apply Hft.
    + intros p. rewrite later_touched_stringify. unfold later_present.
      rewrite params_stringify. apply Heq.
  - intros s o' [Hft Heq]. split; [intros p Hp; now apply Hft | exact Heq].
Qed.

(** X7: on every builder a client can reach, a part later than [p] has
    its flag set exactly when a part later than [p] holds a fragment: the
    flags that failed additions leave behind never change what the order
    check answers. *)
Theorem flags_tell_fragments (cs : list call) (l : loc) (o : t) (p : part) :
  fst (run cs []) !! l = Some o ->
  later_touched p o = later_present p o.
Proof. intros Hl. now apply (flags_follow_fragments_reachable cs l o Hl). Qed.

(** After [attr('x')], the failed [class('c')] has set the flag of [class]
    and no fragment of it: seen from [element], a later part is touched, and
    a later part holds a fragment. *)
Lemma flags_tell_fragments_witness :
  later_touched Element
    (fst (add Class "c" (fst (add Attr "x" constructor))))
  = later_present Element
      (fst (add Class "c" (fst (add Attr "x" constructor)))).
Proof.
  exact (flags_tell_fragments [builder_add Attr "x"; obj_add 0 Class "c"] 0
    (fst (add Class "c" (fst (add Attr "x" constructor)))) Element eq_refl).
Defined.

(** ** Builders only grow, and apart *)

Lemma grows_refl (o : t) : grows o o.
Proof. split; [intros q; reflexivity | auto]. Qed.

Lemma grows_trans (o1 o2 o3 : t) : grows o1 o2 -> grows o2 o3 -> grows o1 o3.
Proof.
  intros [Hf12 Ht12] [Hf23 Ht23]. split.
  - intros q. etransitivity; [apply Hf12 | apply Hf23].
  - auto.
Qed.

Lemma grows_touch (p : part) (o : t) : grows o (touch p o).
Proof.
  split; [intros q; reflexivity|].
  intros q Hq. now rewrite touched_touch, Hq.
Qed.

Lemma grows_push (p : part) (v : string) (o : t) : grows o (push p v o).
Proof.
  split.
  - intros q. rewrite fragments_push.
    destruct (bool_decide (q = p)); [now apply prefix_app_r | reflexivity].
  - intros q Hq. now rewrite touched_push.
Qed.

Lemma grows_add (p : part) (v : string) (o : t) : grows o (fst (add p v o)).
Proof.
  rewrite add_spec.
  destruct (occurrence_first p && _); [apply grows_refl|].
  destruct (later_touched p o); [apply grows_touch|].
  destruct (single p && _); [apply grows_touch|].
  cbn [fst]. eapply grows_trans; [apply grows_touch | apply grows_push].
Qed.

Lemma grows_set_selectorString (s : string) (o : t) : grows o (set_selectorString s o).
Proof. split; [intros q; reflexivity | auto]. Qed.

Lemma grows_stringify (o : t) : grows o (fst (stringify o)).
Proof. rewrite stringify_spec. apply grows_set_selectorString. Qed.

Lemma heap_grows_refl (h : heap) : heap_grows h h.
Proof. intros l o Hl. exists o. split; [exact Hl | apply grows_refl]. Qed.

Lemma heap_grows_trans (h1 h2 h3 : heap) :
  heap_grows h1 h2 -> heap_grows h2 h3 -> heap_grows h1 h3.
Proof.
  intros H12 H23 l o Hl.
  destruct (H12 l o Hl) as (o2 & Hl2 & Hg2).
  destruct (H23 l o2 Hl2) as (o3 & Hl3 & Hg3).
  exists o3. split; [exact Hl3 | now apply (grows_trans o o2 o3)].
Qed.

Lemma extends_ret {A} (a : A) : extends (ret a).
Proof. intros h. apply heap_grows_refl. Qed.

Lemma extends_bind {A B} (m : program A) (k : A -> program B) :
  extends m -> (forall a, extends (k a)) -> extends (bind m k).
Proof.
  intros Hm Hk h. unfold bind. specialize (Hm h).
  destruct (m h) as [h' [a|e]]; cbn [fst] in *; [|exact Hm].
  eapply heap_grows_trans; [exact Hm | apply Hk].
Qed.

Lemma extends_new : extends new.
Proof.
  intros h l o Hl. exists o. split; [|apply grows_refl].
  unfold new, heap, loc in *. cbn [fst]. rewrite lookup_app_l; [exact Hl|].
  eapply lookup_lt_Some; eassumption.
Qed.

Lemma extends_invoke {A} (this : loc) (m : method A) :
  (forall o, grows o (fst (m o))) -> extends (invoke this m).
Proof.
  intros Hm h l o Hl. unfold invoke, heap, loc in *.
  destruct (h !! this) as [o0|] eqn:Hthis;
    [|exists o; split; [exact Hl | apply grows_refl]].
  specialize (Hm o0). destruct (m o0) as [o0' r]. cbn [fst] in *.
  destruct (decide (l = this)) as [->|Hne].
  - exists o0'. split.
    + apply list_lookup_insert_eq. eapply lookup_lt_Some; eassumption.
    + congruence.
  - exists o. split; [now rewrite list_lookup_insert_ne | apply grows_refl].
Qed.

Lemma extends_combine (this s1 : loc) (c : string) (s2 : loc) :
  extends (combine this s1 c s2).
Proof.
  unfold combine.
  apply extends_bind; [apply extends_invoke, grows_stringify|]. intros r1.
  apply extends_bind; [apply extends_invoke, grows_stringify|]. intros r2.
  apply extends_bind; [|intros _; apply extends_ret].
  apply extends_invoke. intros o. apply grows_set_selectorString.
Qed.

Lemma extends_send (this : loc) (p : part) (v : string) : extends (send this (add p v)).
Proof.
  apply extends_bind; [|intros _; apply extends_ret].
  apply extends_invoke. intros o. apply grows_add.
Qed.

Lemma extends_exec (c : call) : extends (exec c).
Proof.
  destruct c as [p v|s1 c s2| |this p v|this s1 c s2|this]; cbn [exec];
    (apply extends_bind; [|intros ?; apply extends_ret]).
  - destruct p; (apply extends_bind; [apply extends_new|]); intros this.
    + apply (extends_send this Element).
    + apply (extends_send this Id).
    + apply (extends_send this Class).
    + apply (extends_send this Attr).
    + apply (extends_send this PseudoClass).
    + apply (extends_send this PseudoElement).
  - apply extends_bind; [apply extends_new|]. intros this. apply extends_combine.
  - apply extends_ret.
  - apply extends_send.
  - apply extends_combine.
  - apply extends_invoke, grows_stringify.
Qed.

(** X8: whatever a client calls, and whatever fails, a builder only grows:
    it stays on the heap, the fragments of each of its parts are extended at
    the end and never removed or reordered, and a flag that is set stays
    set. *)
Theorem builders_only_grow (cs : list call) (h : heap) (l : loc) (o : t) :
  h !! l = Some o ->
  exists o', fst (run cs h) !! l = Some o' /\
             (forall q, fragments q (params o) `prefix_of` fragments q (params o')) /\
             (forall q, touched q o = true -> touched q o' = true).
Proof.
  revert h o. induction cs as [|c cs IH]; intros h o Hl.
  - exists o. split; [exact Hl|]. apply grows_refl.
  - cbn [run]. destruct (extends_exec c h l o Hl) as (o1 & Hl1 & Hg1).
    destruct (exec c h) as [h1 r]. cbn [fst] in *.
    destruct (IH h1 o1 Hl1) as (o2 & Hl2 & Hg2).
    destruct (run cs h1) as [h2 rs]. cbn [fst] in *.
    exists o2. split; [exact Hl2|]. exact (grows_trans o o1 o2 Hg1 Hg2).
Qed.

(** On [element('a')]: a failed [element('b')], then [id('i')] and a
    [combine] that reads the builder. *)
Lemma builders_only_grow_witness :
  exists o',
    fst (run [obj_add 0 Element "b"; obj_add 0 Id "i"; builder_combine 0 "+" 0]
             (fst (run [builder_add Element "a"] []))) !! 0 = Some o' /\
    (forall q, fragments q (params (fst (add Element "a" constructor)))
               `prefix_of` fragments q (params o')) /\
    (forall q, touched q (fst (add Element "a" constructor)) = true ->
               touched q o' = true).
Proof.
  exact (builders_only_grow
    [obj_add 0 Element "b"; obj_add 0 Id "i"; builder_combine 0 "+" 0]
    (fst (run [builder_add Element "a"] [])) 0 (fst (add Element "a" constructor))
    eq_refl).
Defined.

Lemma invoke_spec {A} (h : heap) (this : loc) (o : t) (m : method A) :
  h !! this = Some o -> invoke this m h = (<[this := fst (m o)]> h, snd (m o)).
Proof. intros Hthis. unfold invoke. rewrite Hthis. now destruct (m o). Qed.


Lemma lookup_new (h : heap) : (h ++ [constructor]) !! length h = Some constructor.
Proof. unfold heap in *. rewrite lookup_app_r by lia. now rewrite Nat.sub_diag. Qed.

Lemma insert_new (h : heap) (o o' : t) : <[length h := o']> (h ++ [o]) = h ++ [o'].
Proof.
  unfold heap in *. rewrite insert_app_r_alt by lia. now rewrite Nat.sub_diag.
Qed.

Lemma invoke_new {A} (h : heap) (n : loc) (m : method A) :
  n = length h ->
  invoke n m (h ++ [constructor]) = (h ++ [fst (m constructor)], snd (m constructor)).
Proof.
  intros ->. rewrite (invoke_spec _ _ constructor) by apply lookup_new.
  now rewrite insert_new.
Qed.

Lemma add_constructor (p : part) (v : string) : snd (add p v constructor) = Return tt.
Proof. now destruct p. Qed.

Lemma builder_fresh (p : part) (v : string) (h : heap) :
  builder p v h = (h ++ [fst (add p v constructor)], Return (length h)).
Proof.
  assert (builder p v = (this <- new ;;; send this (add p v))) as ->
    by now destruct p.
  unfold bind, new, send, bind, ret.
  rewrite invoke_new by reflexivity. pose proof (add_constructor p v) as Hret.
  destruct (add p v constructor) as [o' r]. cbn [fst snd] in *. now subst r.
Qed.

(** X9: an entry of the facade never throws and never touches the selectors
    there are: it returns a new selector, which holds the one fragment and
    renders as that fragment between the prefix and the suffix of its
    part. *)
Theorem facade_makes_fresh_selector (p : part) (v : string) (h : heap) :
  builder p v h = (h ++ [fst (add p v constructor)], Return (length h)) /\
  (forall q, fragments q (params (fst (add p v constructor)))
             = if bool_decide (q = p) then [v] else []) /\
  snd (stringify (fst (add p v constructor))) = Return (prefix p +:+ v +:+ suffix p).
Proof.
  split; [|split].
  - apply builder_fresh.
  - intros q. now destruct p, q.
  - rewrite stringify_spec. cbn [snd].
    destruct p; cbn; rewrite ?append_nil_r; reflexivity.
Qed.

(** ** [combine] *)

(** X10: on two selectors of the heap, the same one twice included,
    [cssSelectorBuilder.combine] never throws: it calls [stringify()] on the
    first operand, then on the second as the first call has left it, leaves
    both as these calls leave them, and returns a new selector without
    fragments whose [selectorString] is the two returned strings around the
    combinator, a space on either side. *)
Theorem combine_stringifies_in_order (h : heap) (l1 l2 : loc) (o1 o2 : t) (c : string) :
  h !! l1 = Some o1 ->
  <[l1 := fst (stringify o1)]> h !! l2 = Some o2 ->
  cssSelectorBuilder.combine l1 c l2 h
  = (<[l2 := fst (stringify o2)]> (<[l1 := fst (stringify o1)]> h)
     ++ [set_selectorString
           ((selectorString o1 +:+ render (fun p => fragments p (params o1)))
            +:+ " " +:+ c +:+ " " +:+
            (selectorString o2 +:+ render (fun p => fragments p (params o2))))
           constructor],
     Return (length h)).
Proof.
  intros H1 H2. unfold heap, loc in *.
  assert (l1 < length h) as Hlt1 by (eapply lookup_lt_Some; eassumption).
  assert (l2 < length h) as Hlt2.
  { apply lookup_lt_Some in H2. now rewrite length_insert in H2. }
  unfold cssSelectorBuilder.combine, combine, bind, new, ret.
  rewrite (invoke_spec _ l1 o1) by (unfold heap; now rewrite lookup_app_l).
  unfold heap. rewrite insert_app_l by exact Hlt1.
  rewrite (invoke_spec _ l2 o2)
    by (unfold heap; rewrite lookup_app_l; [exact H2 | now rewrite length_insert]).
  unfold heap. rewrite insert_app_l by now rewrite length_insert.
  rewrite !stringify_spec. cbn [fst snd].
  rewrite invoke_new by now rewrite !length_insert.
  reflexivity.
Qed.

(** [builder.combine(a, '+', a)] on [a = builder.element('a')]: the new
    selector holds ['a + aa'], and [a] has been stringified twice. *)
Lemma combine_stringifies_in_order_witness :
  cssSelectorBuilder.combine 0 "+" 0 [fst (add Element "a" constructor)]
  = ([set_selectorString "aa" (fst (add Element "a" constructor));
      set_selectorString "a + aa" constructor], Return 1).
Proof.
  exact (combine_stringifies_in_order [fst (add Element "a" constructor)] 0 0
    (fst (add Element "a" constructor))
    (fst (stringify (fst (add Element "a" constructor)))) "+" eq_refl eq_refl).
Defined.

(** X11: a selector made by [combine] takes fragments as a new builder
    does: the same chains are accepted, and [stringify()] returns the
    combined string followed by the rendering of the fragments added since. *)
Theorem combined_selector_takes_fragments (s : string) (adds : list (part * string)) :
  (snd (chain adds (set_selectorString s constructor)) = Return tt
   <-> accepted None adds = true) /\
  (accepted None adds = true ->
   snd (stringify (fst (chain adds (set_selectorString s constructor))))
   = Return (s +:+ render (fun p => added p adds))).
Proof.
  assert (tip None (set_selectorString s constructor)) as Htip
    by (intros q _; now destruct q).
  destruct (chain_accepted adds None _ Htip) as [Hiff Hstate].
  split; [exact Hiff|]. intros Hacc. destruct (Hstate Hacc) as [Hsel Hfr].
  rewrite stringify_spec. cbn [snd]. rewrite Hsel.
  cbn [selectorString set_selectorString]. do 2 f_equal.
  unfold render. f_equal. apply map_ext. intros p. rewrite Hfr. now destruct p.
Qed.

(** [combine(div, '>', p)], then [.class('x')] on the result. *)
Lemma combined_selector_takes_fragments_witness :
  snd (stringify (fst (chain [(Class, "x")] (set_selectorString "div > p" constructor))))
  = Return "div > p.x".
Proof.
  exact (proj2 (combined_selector_takes_fragments "div > p" [(Class, "x")]) eq_refl).
Defined.



(** ** Selectors a call does not name *)

Lemma keeps_ret {A} (l : loc) (a : A) : keeps l (ret a : program A).
Proof. intros h. cbn. auto. Qed.

Lemma keeps_bind {A B} (l : loc) (m : program A) (k : A -> program B) :
  keeps l m -> (forall a, keeps l (k a)) -> keeps l (bind m k).
Proof.
  intros Hm Hk h. unfold bind. destruct (Hm h) as [Hlen Hl].
  destruct (m h) as [h' [a|e]]; cbn [fst] in *; [|auto].
  destruct (Hk a h') as [Hlen' Hl']. split; [lia|].
  intros Hlt. rewrite Hl' by lia. auto.
Qed.

Lemma keeps_invoke {A} (l this : loc) (m : method A) :
  l <> this -> keeps l (invoke this m).
Proof.
  intros Hne h. unfold invoke, heap, loc in *.
  destruct (h !! this) as [o|]; [|cbn; auto].
  destruct (m o) as [o' r]. cbn [fst]. rewrite length_insert. split; [lia|].
  intros _. now apply list_lookup_insert_ne.
Qed.

Lemma keeps_send (l this : loc) (m : method unit) :
  l <> this -> keeps l (send this m).
Proof.
  intros Hne. unfold send. apply keeps_bind; [now apply keeps_invoke|].
  intros _. apply keeps_ret.
Qed.

Lemma keeps_combine (l this s1 s2 : loc) (c : string) :
  l <> this -> l <> s1 -> l <> s2 -> keeps l (combine this s1 c s2).
Proof.
  intros H0 H1 H2. unfold combine.
  apply keeps_bind; [now apply keeps_invoke|]. intros r1.
  apply keeps_bind; [now apply keeps_invoke|]. intros r2.
  apply keeps_bind; [now apply keeps_invoke|]. intros _. apply keeps_ret.
Qed.


Lemma exec_keeps (c : call) (l : loc) (h : heap) :
  l ∉ names c -> l < length h ->
  length h <= length (fst (exec c h)) /\ fst (exec c h) !! l = h !! l.
Proof.
  intros Hnames Hlt.
  assert (forall (m : program value), keeps l m ->
            length h <= length (fst (m h)) /\ fst (m h) !! l = h !! l) as Hkeeps.
  { intros m Hm. destruct (Hm h) as [Hlen Hl]. auto. }
  destruct c as [p v|s1 c s2| |this p v|this s1 c s2|this]; cbn [exec names] in *.
  - unfold bind. rewrite builder_fresh. cbn [fst ret]. unfold heap, loc in *.
    rewrite length_app. cbn. split; [lia|]. now rewrite lookup_app_l.
  - rewrite !not_elem_of_cons in Hnames. destruct Hnames as (H1 & H2 & _).
    assert (fst ((l0 <- cssSelectorBuilder.combine s1 c s2 ;;; ret (Ref l0)) h)
            = fst (combine (length h) s1 c s2 (h ++ [constructor]))) as ->.
    { unfold cssSelectorBuilder.combine, bind, new.
      now destruct (combine (length h) s1 c s2 (h ++ [constructor])) as [h' [r|e]]. }
    destruct (keeps_combine l (length h) s1 s2 c ltac:(lia) H1 H2 (h ++ [constructor]))
      as [Hlen Hl].
    unfold heap, loc in *. rewrite length_app in *. cbn in Hlen.
    split; [lia|]. rewrite Hl by lia. now rewrite lookup_app_l.
  - apply Hkeeps. apply keeps_bind; [apply keeps_ret|]. intros ?. apply keeps_ret.
  - apply Hkeeps. rewrite !not_elem_of_cons in Hnames. destruct Hnames as [H0 _].
    apply keeps_bind; [now apply keeps_send|]. intros ?. apply keeps_ret.
  - apply Hkeeps.
    rewrite !not_elem_of_cons in Hnames. destruct Hnames as (H0 & H1 & H2 & _).
    apply keeps_bind; [now apply keeps_combine|]. intros ?. apply keeps_ret.
  - apply Hkeeps. rewrite !not_elem_of_cons in Hnames. destruct Hnames as [H0 _].
    apply keeps_bind; [now apply keeps_invoke|]. intros ?. apply keeps_ret.
Qed.

(** X13: selectors do not share state: a sequence of calls, exceptions
    caught, leaves every selector as it is that none of the calls has as its
    receiver or as an operand of [combine]. *)
Theorem unnamed_selectors_untouched (cs : list call) (h : heap) (l : loc) :
  l < length h -> Forall (fun c => l ∉ names c) cs ->
  fst (run cs h) !! l = h !! l.
Proof.
  intros Hlt Hcs. revert h Hlt.
  induction Hcs as [|c cs Hc _ IH]; intros h Hlt; [reflexivity|].
  cbn [run]. destruct (exec_keeps c l h Hc Hlt) as [Hlen Hl].
  destruct (exec c h) as [h' r]. cbn [fst] in *.
  specialize (IH h' ltac:(lia)). destruct (run cs h') as [h'' rs]. cbn [fst] in *.
  now rewrite IH.
Qed.

(** Two selectors; the second is stringified, extended and used as both
    operands of a [combine]: the first is as it was. *)
Lemma unnamed_selectors_untouched_witness :
  fst (run [obj_stringify 1; obj_add 1 Class "x"; builder_combine 1 "+" 1]
         [fst (add Element "a" constructor); fst (add Id "b" constructor)]) !! 0
  = Some (fst (add Element "a" constructor)).
Proof.
  apply (unnamed_selectors_untouched
           [obj_stringify 1; obj_add 1 Class "x"; builder_combine 1 "+" 1]
           [fst (add Element "a" constructor); fst (add Id "b" constructor)] 0).
  - cbn. lia.
  - apply (bool_decide_unpack _). vm_compute. exact I.
Defined.

(** ** [fromJSON] where an assignment fails *)

Lemma assign_properties_throws (props : list (string * json)) (p : prototype) :
  forall props0,
    NoDup (map fst (props0 ++ props)) ->
    forallb (fun k => negb (has_setter p k)) (map fst props) = true ->
    forallb (assignable p) (map fst props) = false ->
    exists target message,
      Object.assign_properties props {| own := props0; proto := p |}
      = (target, Throw (TypeError message)).
Proof.
  induction props as [|[k x] props IH]; intros props0 Hnodup Hset Hp; [discriminate|].
  cbn [map fst forallb] in Hset, Hp. apply andb_true_iff in Hset as [Hk Hset].
  assert (k ∉ map fst props0) as Hfresh.
  { rewrite map_app in Hnodup. apply NoDup_app in Hnodup as (_ & Hdisj & _).
    intros Hin. apply (Hdisj k Hin). cbn. left. }
  cbn [Object.assign_properties]. unfold bind.
  destruct (assignable p k) eqn:Hassignable.
  - rewrite set_fresh by assumption.
    apply IH; [now rewrite <- app_assoc | exact Hset | exact Hp].
  - unfold Object.set. cbn [own proto]. rewrite (assoc_None k props0 Hfresh).
    unfold assignable in Hassignable. unfold has_setter in Hk.
    destruct (inherited k p) as [[[]|[f|]]|]; try discriminate;
      eexists; eexists; reflexivity.
Qed.

(** X14: [fromJSON] throws a [TypeError], and returns no object, when the
    text parses to a value of which some key resolves, along the prototype
    chain, to a read-only data property or to an accessor without a setter,
    and no key to an accessor with a setter: [Object.assign] assigns, and
    the assignment to that key fails. *)
Theorem fromJSON_TypeError (JSON_parse : string -> completion json) (text : string)
    (v : json) (p : prototype) :
  JSON_parse text = Return v ->
  NoDup (map fst (Object.own_enumerable v)) ->
  forallb (fun k => negb (has_setter p k)) (map fst (Object.own_enumerable v)) = true ->
  forallb (assignable p) (map fst (Object.own_enumerable v)) = false ->
  exists message, fromJSON JSON_parse p text = Throw (TypeError message).
Proof.
  intros Hparse Hnodup Hset Hp. unfold fromJSON. rewrite Hparse.
  unfold Object.assign, Object.create.
  destruct (assign_properties_throws _ p [] Hnodup Hset Hp) as (target & message & ->).
  now exists message.
Qed.

(** The class with the getter [area], and a text with the key [area]. *)
Lemma fromJSON_TypeError_witness :
  exists message,
    fromJSON JSON.parse [Circle_prototype; Object_prototype]
      ("{" +:+ dq +:+ "radius" +:+ dq +:+ ":10," +:+ dq +:+ "area" +:+ dq +:+ ":1}")
    = Throw (TypeError message).
Proof.
  apply (fromJSON_TypeError JSON.parse
           ("{" +:+ dq +:+ "radius" +:+ dq +:+ ":10," +:+ dq +:+ "area" +:+ dq +:+ ":1}")
           (JObject [("radius", JNumber 10); ("area", JNumber 1)])
           [Circle_prototype; Object_prototype]).
  - vm_compute. reflexivity.
  - apply (bool_decide_unpack _). vm_compute. exact I.
  - reflexivity.
  - reflexivity.
Defined.

(** ** [Rectangle]: the function [getArea] and its [this] *)

Lemma Rectangle_assignments_dangling {number : Type} (r : Rectangle.ref)
    (ws : list (Rectangle.assignment number)) (h : Rectangle.heap number) :
  h !! r = None -> fst (Rectangle.assignments r ws h) = h.
Proof.
  intros Hr. unfold Rectangle.heap, Rectangle.ref in *.
  destruct ws as [|[w|w] ws]; [reflexivity| |];
    cbn [Rectangle.assignments];
    unfold bind, Rectangle.set_width, Rectangle.set_height, Rectangle.heap, Rectangle.ref;
    now rewrite Hr.
Qed.

(** X15: [getArea()] reads the rectangle its function was created for, and
    nothing else: assignments to the fields of any other rectangle leave
    what it returns as it is, whatever object it is called on. *)
Theorem Rectangle_getArea_reads_its_own (number : Type) (mul : number -> number -> number)
    (h : Rectangle.heap number) (r r0 r' : Rectangle.ref) (o : Rectangle.t number)
    (ws : list (Rectangle.assignment number)) :
  h !! r = Some o -> Rectangle.getArea o = Rectangle.arrow r0 -> r0 <> r' ->
  snd (Rectangle.call_getArea mul r (fst (Rectangle.assignments r' ws h)))
  = snd (Rectangle.call_getArea mul r h).
Proof.
  intros Hr Harrow Hne.
  destruct (h !! r') as [o'|] eqn:Hr';
    [|now rewrite (Rectangle_assignments_dangling r' ws h Hr')].
  rewrite (Rectangle_assignments_spec r' ws h o' Hr'). cbn [fst].
  unfold Rectangle.heap, Rectangle.ref in *.
  set (o'' := Rectangle.mk _ _ _).
  assert (exists o1, <[r' := o'']> h !! r = Some o1 /\
                     Rectangle.getArea o1 = Rectangle.arrow r0) as (o1 & Hr1 & Harrow1).
  { destruct (Nat.eq_dec r r') as [->|Hrr'].
    - exists o''. split; [apply list_lookup_insert_eq; eapply lookup_lt_Some; eassumption|].
      subst o''. cbn. congruence.
    - exists o. split; [now rewrite list_lookup_insert_ne|exact Harrow]. }
  unfold Rectangle.call_getArea, Rectangle.heap, Rectangle.ref in *.
  rewrite Hr, Hr1, Harrow, Harrow1.
  unfold bind, Rectangle.get_width, Rectangle.get_height, Rectangle.heap, Rectangle.ref.
  rewrite list_lookup_insert_ne by congruence.
  destruct (h !! r0) as [o0|]; [|reflexivity]. cbn [ret].
  rewrite list_lookup_insert_ne by congruence.
  destruct (h !! r0) as [o0'|]; reflexivity.
Qed.

(** [a = new Rectangle(10, 20)], [b = new Rectangle(2, 3)], [b.width = 7]:
    [a.getArea()] is as before. *)
Lemma Rectangle_getArea_reads_its_own_witness :
  snd (Rectangle.call_getArea Z.mul 0
         (fst (Rectangle.assignments 1 [Rectangle.Width 7%Z]
                 [Rectangle.mk 10%Z 20%Z (Rectangle.arrow 0);
                  Rectangle.mk 2%Z 3%Z (Rectangle.arrow 1)])))
  = snd (Rectangle.call_getArea Z.mul 0
           [Rectangle.mk 10%Z 20%Z (Rectangle.arrow 0);
            Rectangle.mk 2%Z 3%Z (Rectangle.arrow 1)]).
Proof.
  apply (Rectangle_getArea_reads_its_own Z Z.mul
           [Rectangle.mk 10%Z 20%Z (Rectangle.arrow 0);
            Rectangle.mk 2%Z 3%Z (Rectangle.arrow 1)] 0 0 1
           (Rectangle.mk 10%Z 20%Z (Rectangle.arrow 0)) [Rectangle.Width 7%Z]).
  - reflexivity.
  - reflexivity.
  - lia.
Defined.

Lemma lookup_two {A} (l : list A) (a b : A) :
  (l ++ [a; b]) !! length l = Some a /\ (l ++ [a; b]) !! S (length l) = Some b.
Proof.
  split; rewrite lookup_app_r by lia.
  - now rewrite Nat.sub_diag.
  - now replace (S (length l) - length l) with 1 by lia.
Qed.

Lemma insert_two {A} (l : list A) (a b x : A) :
  <[length l := x]> (l ++ [a; b]) = l ++ [x; b] /\
  <[S (length l) := x]> (l ++ [a; b]) = l ++ [a; x].
Proof.
  split; rewrite insert_app_r_alt by lia.
  - now rewrite Nat.sub_diag.
  - now replace (S (length l) - length l) with 1 by lia.
Qed.

(** X16: the arrow function keeps the [this] of the constructor call:
    after [r2.getArea = r1.getArea], for two new rectangles, and any
    assignments to the fields of both, [r2.getArea()] returns the product of
    the fields of [r1]. *)
Theorem Rectangle_getArea_keeps_this (number : Type) (mul : number -> number -> number)
    (h : Rectangle.heap number) (w1 h1 w2 h2 : number)
    (ws1 ws2 : list (Rectangle.assignment number)) :
  snd ((r1 <- Rectangle.Rectangle w1 h1 ;;;
        r2 <- Rectangle.Rectangle w2 h2 ;;;
        f <- get_getArea r1 ;;;
        set_getArea r2 f ;;;
        Rectangle.assignments r1 ws1 ;;;
        Rectangle.assignments r2 ws2 ;;;
        Rectangle.call_getArea mul r2) h)
  = Return (mul (fst (Rectangle.current ws1 (w1, h1)))
                (snd (Rectangle.current ws1 (w1, h1)))).
Proof.
  set (this := Rectangle.arrow (length h)).
  set (o1 := Rectangle.mk w1 h1 this).
  set (o2 := Rectangle.mk w2 h2 (Rectangle.arrow (S (length h)))).
  unfold bind at 1 2. unfold Rectangle.Rectangle.
  replace (length (h ++ [Rectangle.mk w1 h1 (Rectangle.arrow (length h))]))
    with (S (length h)) by (rewrite length_app; cbn; lia).
  fold this o1 o2. rewrite <- app_assoc. cbn [app].
  destruct (lookup_two h o1 o2) as [Hr1 Hr2].
  unfold bind at 1 2. unfold get_getArea, set_getArea, Rectangle.heap, Rectangle.ref in *.
  rewrite Hr1. cbn [ret Rectangle.getArea o1]. rewrite Hr2. cbn [ret].
  rewrite (proj2 (insert_two h o1 o2 _)).
  cbn [Rectangle.width Rectangle.height o2].
  set (o2a := Rectangle.mk w2 h2 this).
  destruct (lookup_two h o1 o2a) as [Hr1a _].
  unfold bind at 1.
  pose proof (Rectangle_assignments_spec (length h) ws1 _ o1 Hr1a) as Hws1.
  unfold Rectangle.heap, Rectangle.ref in *. rewrite Hws1.
  rewrite (proj1 (insert_two h o1 o2a _)).
  cbn [Rectangle.width Rectangle.height Rectangle.getArea o1].
  set (o1b := Rectangle.mk _ _ this).
  destruct (lookup_two h o1b o2a) as [_ Hr2b].
  unfold bind at 1.
  pose proof (Rectangle_assignments_spec (S (length h)) ws2 _ o2a Hr2b) as Hws2.
  unfold Rectangle.heap, Rectangle.ref in *. rewrite Hws2.
  rewrite (proj2 (insert_two h o1b o2a _)).
  set (o2c := Rectangle.mk _ _ _).
  destruct (lookup_two h o1b o2c) as [Hr1c Hr2c].
  unfold Rectangle.call_getArea, Rectangle.heap, Rectangle.ref in *.
  rewrite Hr2c. cbn [Rectangle.getArea o2c o2a this].
  unfold bind, Rectangle.get_width, Rectangle.get_height, Rectangle.heap, Rectangle.ref.
  rewrite Hr1c. cbn [ret]. rewrite Hr1c. reflexivity.
Qed.

(** ** [combine] on a selector that holds fragments *)

(** X17: [combine] replaces the [selectorString] of its receiver and keeps
    its fragments: called on a selector other than the operands, it returns
    the receiver, and [stringify()] on it then returns the two strings
    around the combinator followed by the rendering of the fragments the
    receiver held before. *)
Theorem combine_keeps_fragments_of_receiver (h : heap) (this l1 l2 : loc)
    (o o1 o2 : t) (c : string) :
  h !! this = Some o -> h !! l1 = Some o1 ->
  <[l1 := fst (stringify o1)]> h !! l2 = Some o2 ->
  this <> l1 -> this <> l2 ->
  snd (run [obj_combine this l1 c l2; obj_stringify this] h)
  = [Return (Ref this);
     Return (Str (((selectorString o1 +:+ render (fun p => fragments p (params o1)))
                   +:+ " " +:+ c +:+ " " +:+
                   (selectorString o2 +:+ render (fun p => fragments p (params o2))))
                  +:+ render (fun p => fragments p (params o))))].
Proof.
  intros Hthis H1 H2 Hne1 Hne2. unfold heap, loc in *.
  assert (this < length h) as Hlt by (eapply lookup_lt_Some; eassumption).
  cbn [run exec]. unfold combine, bind, ret.
  rewrite (invoke_spec _ l1 o1 _ H1), (invoke_spec _ l2 o2 _ H2).
  rewrite !stringify_spec. cbn [fst snd].
  rewrite (invoke_spec _ this o)
    by (unfold heap, loc; now rewrite !list_lookup_insert_ne by congruence).
  cbn [fst snd].
  erewrite invoke_spec
    by (unfold heap, loc; apply list_lookup_insert_eq; now rewrite !length_insert).
  rewrite stringify_spec. cbn [fst snd params selectorString set_selectorString].
  reflexivity.
Qed.

(** [x = builder.class('x')], [a = builder.element('a')],
    [b = builder.element('b')]: after [x.combine(a, '+', b)],
    [x.stringify()] is ['a + b.x']. *)
Lemma combine_keeps_fragments_of_receiver_witness :
  snd (run [obj_combine 0 1 "+" 2; obj_stringify 0]
         [fst (add Class "x" constructor); fst (add Element "a" constructor);
          fst (add Element "b" constructor)])
  = [Return (Ref 0); Return (Str "a + b.x")].
Proof.
  exact (combine_keeps_fragments_of_receiver
           [fst (add Class "x" constructor); fst (add Element "a" constructor);
            fst (add Element "b" constructor)] 0 1 2
           (fst (add Class "x" constructor)) (fst (add Element "a" constructor))
           (fst (add Element "b" constructor)) "+"
           eq_refl eq_refl eq_refl ltac:(lia) ltac:(lia)).
Defined.
